(** * download-m3u8: a shallow embedding of [src/download-m3u8.ts]

    The development follows the source file top to bottom: the JavaScript
    string primitives the code relies on, the manifest resolver
    ([parseM3u8], [isMasterPlaylist], [chooseM3u8]), the retry wrapper
    ([retry]), the segment fetcher ([downloadTs]), the assembler
    ([mergeTsFiles]), the scheduler ([runWithConcurrency], a transition
    system) and the driver ([downloadM3u8]).

    Conventions.  A JavaScript string is a [string]: a sequence of code
    units, restricted to the range 0..255.  A byte buffer is a
    [list byte].  A thrown value is a [JsError] carrying its message (every
    [throw] of the source, and every rejection of [fetch], is an [Error]
    instance).  The network is an oracle giving the outcome of every
    request; the file system is a finite map. *)

From Stdlib Require Import NArith Ascii DecimalString.
From Stdlib Require DecimalPos DecimalN.
From stdpp Require Import gmap strings list sorting.

Set Warnings "-clear-no-such-hyp".

Local Open Scope string_scope.
Local Open Scope list_scope.

(** ** JavaScript string primitives *)

Module Js.

(** [s.split(sep)] for a one-character separator: never empty. *)
Fixpoint split (sep : ascii) (s : string) : list string :=
  match s with
  | "" => [""]
  | String c s' =>
      if Ascii.eqb c sep then "" :: split sep s'
      else match split sep s' with
           | h :: t => String c h :: t
           | [] => [String c ""]
           end
  end.

(** [l.join(sep)]. *)
Definition join (sep : string) (l : list string) : string :=
  String.concat sep l.

(** [l.slice(0, -1)]: everything but the last element. *)
Definition slice_0_m1 {A} (l : list A) : list A := removelast l.

(** White space and line terminators of ECMAScript below code unit 256:
    TAB, LF, VT, FF, CR, SP and NBSP. *)
Definition isWhiteSpace (c : ascii) : bool :=
  let n := Ascii.N_of_ascii c in
  ((9 <=? n) && (n <=? 13) || (n =? 32) || (n =? 160))%N.

Fixpoint trimStart (s : string) : string :=
  match s with
  | "" => ""
  | String c s' => if isWhiteSpace c then trimStart s' else s
  end.

Fixpoint trimEnd (s : string) : string :=
  match s with
  | "" => ""
  | String c s' =>
      let r := trimEnd s' in
      if isWhiteSpace c && String.eqb r "" then "" else String c r
  end.

(** [s.trim()]. *)
Definition trim (s : string) : string := trimEnd (trimStart s).

(** [s.startsWith(p)]. *)
Definition startsWith (p s : string) : bool := String.prefix p s.

(** [s.endsWith(p)]. *)
Fixpoint endsWith (p s : string) : bool :=
  String.eqb s p ||
  match s with
  | "" => false
  | String _ s' => endsWith p s'
  end.

(** [s.includes(p)]. *)
Fixpoint includes (p s : string) : bool :=
  String.prefix p s ||
  match s with
  | "" => false
  | String _ s' => includes p s'
  end.

(** Truthiness of a string: only the empty string is falsy. *)
Definition truthy (s : string) : bool := negb (String.eqb s "").

(** [n.toString()] for a non-negative integer. *)
Definition toString (n : N) : string :=
  NilZero.string_of_uint (N.to_uint n).

Fixpoint repeat_char (c : ascii) (k : nat) : string :=
  match k with
  | O => ""
  | S k' => String c (repeat_char c k')
  end.

(** [s.padStart(width, c)] for a one-character filler. *)
Definition padStart (width : nat) (c : ascii) (s : string) : string :=
  repeat_char c (width - String.length s) +:+ s.

(** The text of [undefined] inside a template literal. *)
Definition undefined : string := "undefined".

(** Interpolation of a possibly missing string in a template literal. *)
Definition interpolate (o : option string) : string :=
  match o with
  | Some s => s
  | None => undefined
  end.

End Js.

(** ** Errors, results and the network *)

(** An [Error] instance: only its message is observed by the program. *)
Record JsError := MkError { message : string }.

(** The outcome of an asynchronous call: fulfilled or rejected. *)
Inductive outcome (A : Type) :=
| Ok (a : A)
| Throw (e : JsError).
Arguments Ok {A} a.
Arguments Throw {A} e.

(** The outcome of [await fetch(url)]: a transport failure rejects, and
    anything else is a response with a status and a body. *)
Inductive fetch_outcome :=
| NetworkError (e : JsError)
| Response (status : N) (body : list Byte.byte).

(** [res.ok]: the status is in 200..299. *)
Definition ok (status : N) : bool := ((200 <=? status) && (status <=? 299))%N.

(** [await res.text()]. *)
Definition text_of (body : list Byte.byte) : string := String.string_of_list_byte body.

Definition newline : ascii := Ascii.ascii_of_nat 10.

(** [url.split('/').slice(0, -1).join('/')]. *)
Definition baseUrlOf (url : string) : string :=
  Js.join "/" (Js.slice_0_m1 (Js.split "/"%char url)).

(** ** Manifest resolver *)

(** [parseM3u8], given the outcome of [await fetch(m3u8Url)]. *)
Definition parseM3u8 (res : fetch_outcome) (m3u8Url : string)
  : outcome (list string) :=
  match res with
  | NetworkError e => Throw e
  | Response status body =>
      if negb (ok status) then
        Throw (MkError ("Failed to get m3u8: " +:+ Js.toString status))
      else
        let text := text_of body in
        let baseUrl := baseUrlOf m3u8Url in
        Ok (map (fun line =>
                   if Js.startsWith "http" line then line
                   else baseUrl +:+ "/" +:+ line)
              (filter (fun line =>
                         Js.truthy line && negb (Js.startsWith "#" line) = true)
                 (map Js.trim (Js.split newline text))))
  end.

(** [isMasterPlaylist], given the outcome of [await fetch(url)]. *)
Definition isMasterPlaylist (res : fetch_outcome) : outcome bool :=
  match res with
  | NetworkError e => Throw e
  | Response status body =>
      if negb (ok status) then
        Throw (MkError ("Failed to fetch m3u8: " +:+ Js.toString status))
      else Ok (Js.includes "#EXT-X-STREAM-INF" (text_of body))
  end.

(** *** Attribute matching

    The three regular expressions of [chooseM3u8] have the same shape: a
    literal key, a greedy non-empty run of characters of one class, and
    (for the name) a closing quote.  [exec] returns capture group 1 of the
    leftmost match. *)

Fixpoint takeWhile (p : ascii -> bool) (s : string) : string :=
  match s with
  | "" => ""
  | String c s' => if p c then String c (takeWhile p s') else ""
  end.

Fixpoint dropWhile (p : ascii -> bool) (s : string) : string :=
  match s with
  | "" => ""
  | String c s' => if p c then dropWhile p s' else s
  end.

Fixpoint afterPrefix (p s : string) : option string :=
  match p, s with
  | "", _ => Some s
  | String a p', String b s' => if Ascii.eqb a b then afterPrefix p' s' else None
  | String _ _, "" => None
  end.

(** A match anchored at the start of [s]. *)
Definition matchHere (key : string) (cls : ascii -> bool)
    (closing : option ascii) (s : string) : option string :=
  match afterPrefix key s with
  | None => None
  | Some rest =>
      let run := takeWhile cls rest in
      if String.eqb run "" then None
      else match closing with
           | None => Some run
           | Some q =>
               match dropWhile cls rest with
               | String c _ => if Ascii.eqb c q then Some run else None
               | "" => None
               end
           end
  end.

(** [regex.exec(s)?.[1]]: the leftmost position where the pattern matches. *)
Fixpoint exec (key : string) (cls : ascii -> bool) (closing : option ascii)
    (s : string) : option string :=
  match matchHere key cls closing s with
  | Some r => Some r
  | None =>
      match s with
      | "" => None
      | String _ s' => exec key cls closing s'
      end
  end.

Definition dquote : ascii := Ascii.ascii_of_nat 34.

Definition isDigit (c : ascii) : bool :=
  let n := Ascii.N_of_ascii c in ((48 <=? n) && (n <=? 57))%N.

(** [/BANDWIDTH=(\d+)/] *)
Definition execBandwidth : string -> option string :=
  exec "BANDWIDTH=" isDigit None.

(** [/RESOLUTION=([0-9x]+)/] *)
Definition execResolution : string -> option string :=
  exec "RESOLUTION=" (fun c => isDigit c || Ascii.eqb c "x") None.

(** [/NAME=QUOTE([^QUOTE]+)QUOTE/] where QUOTE is the double quote. *)
Definition execName : string -> option string :=
  exec ("NAME=" +:+ String dquote "") (fun c => negb (Ascii.eqb c dquote))
    (Some dquote).

(** One entry of [streamInfos]. *)
Record streamInfo := {
  name : option string;
  resolution : option string;
  bandwidth : option string;
  url : string
}.

(** The loop of [chooseM3u8] over [i]: the head of the list is [lines[i]]
    and the head of its tail is [lines[i + 1]], [None] when [i] is the last
    index ([undefined] in the source, where [?.] makes the test falsy and the
    template literal prints it). *)
Fixpoint streamInfos (baseUrl : string) (lines : list string) : list streamInfo :=
  match lines with
  | [] => []
  | line :: rest =>
      let next := head rest in
      (if Js.startsWith "#EXT-X-STREAM-INF" line then
         [ {| name := execName line;
              resolution := execResolution line;
              bandwidth := execBandwidth line;
              url := if match next with
                        | Some l => Js.startsWith "http" l
                        | None => false
                        end
                     then Js.interpolate next
                     else baseUrl +:+ "/" +:+ Js.interpolate next |} ]
       else [])
      ++ streamInfos baseUrl rest
  end.

(** [chooseM3u8], given the outcome of [await fetch(masterUrl)] and the
    interactive prompt, which answers the index of one of the choices it is
    shown. *)
Definition chooseM3u8 (res : fetch_outcome) (masterUrl : string)
    (prompt : list streamInfo -> nat) : outcome string :=
  match res with
  | NetworkError e => Throw e
  | Response status body =>
      if negb (ok status) then
        Throw (MkError ("Failed to fetch m3u8: " +:+ Js.toString status))
      else
        let text := text_of body in
        let baseUrl := baseUrlOf masterUrl in
        let lines := map Js.trim (Js.split newline text) in
        let infos := streamInfos baseUrl lines in
        if Nat.eqb (length infos) 0 then
          Throw (MkError "No media streams found in master playlist")
        else
          let selected := prompt infos in
          match infos !! selected with
          | Some info => Ok (url info)
          | None =>
              Throw (MkError "Cannot read properties of undefined (reading 'url')")
          end
  end.

(** ** Retry wrapper *)

Section Retry.
Context {St T : Type}.

(** A zero-argument asynchronous operation: it acts on the state of the
    world and is fulfilled or rejected. *)
Definition operation := St -> outcome T * St.

(** The effect on the world of [await new Promise(res => setTimeout(res,
    delay))]. *)
Variable sleep : N -> St -> St.

(** The loop [for (let i = 0; i <= retries; i++)]: [fuel] counts the
    values of [i] that are left, so the loop is entered with
    [fuel = retries + 1 - i]; running out of it is leaving the loop. *)
Fixpoint retry_loop (fn : operation) (retries : nat) (delay : N)
    (fuel i : nat) (s : St) : outcome T * St :=
  match fuel with
  | O => (Throw (MkError "Unexpected retry failure"), s)
  | S fuel' =>
      match fn s with
      | (Ok v, s') => (Ok v, s')
      | (Throw e, s') =>
          if Nat.eqb i retries then (Throw e, s')
          else retry_loop fn retries delay fuel' (S i) (sleep delay s')
      end
  end.

Definition retry (fn : operation) (retries : nat) (delay : N) (s : St)
  : outcome T * St :=
  retry_loop fn retries delay (S retries) 0 s.

(** The default arguments [retries = 3, delay = 500]. *)
Definition retry_default (fn : operation) : St -> outcome T * St :=
  retry fn 3 500.

End Retry.

(** Observation of an operation: the outcome of every invocation is
    appended to a log kept beside the state. *)
Definition logged {St T} (fn : @operation St T)
  : @operation (St * list (outcome T)) T :=
  fun '(s, log) => let '(o, s') := fn s in (o, (s', (log ++ [o])%list)).

Definition logged_sleep {St T} (sleep : N -> St -> St)
  : N -> St * list (outcome T) -> St * list (outcome T) :=
  fun d '(s, log) => (sleep d s, log).

Definition is_throw {T} (o : outcome T) : Prop :=
  match o with Throw _ => True | Ok _ => False end.

(** ** The world of one run *)

(** The file system holds directories, each a finite map from entry names
    to contents; a path inside a directory is the pair that [path.join]
    glues together.  Files written through a write stream are kept by their
    path. *)
Record World := {
  fs : gmap string (gmap string (list Byte.byte));
  outputs : gmap string (list Byte.byte);
  progress : nat;
  console : list string
}.

Definition set_fs (f : gmap string (gmap string (list Byte.byte))) (w : World) :=
  {| fs := f; outputs := outputs w; progress := progress w; console := console w |}.
Definition set_outputs (o : gmap string (list Byte.byte)) (w : World) :=
  {| fs := fs w; outputs := o; progress := progress w; console := console w |}.
Definition increment (w : World) :=
  {| fs := fs w; outputs := outputs w; progress := S (progress w); console := console w |}.
Definition console_log (line : string) (w : World) :=
  {| fs := fs w; outputs := outputs w; progress := progress w;
     console := (console w ++ [line])%list |}.

(** ** Segment fetcher *)

(** The entry name [`${index.toString().padStart(5, '0')}.ts`]. *)
Definition filename (index : N) : string :=
  Js.padStart 5 "0" (Js.toString index) +:+ ".ts".

(** What the platform makes of a write into a directory that exists: the
    whole buffer is written, or the write fails.  A failure before the file
    is opened (a permission, a directory of that name) leaves everything as
    it was, [partial = None]; a failure while writing (a full disk) leaves the
    file with the first [n] bytes of the buffer, [partial = Some n]. *)
Inductive write_outcome :=
| Written
| WriteError (e : JsError) (partial : option nat).

(** [fs.promises.writeFile(path.join(folder, name), buffer)], given the
    outcome of the write: the directory must exist, and the file is opened
    for writing, which empties it, before the buffer is written. *)
Definition writeFile (folder name : string) (buffer : list Byte.byte)
    (wr : write_outcome) (w : World) : outcome unit * World :=
  match fs w !! folder with
  | Some dir =>
      match wr with
      | Written =>
          (Ok tt, set_fs (<[folder := <[name := buffer]> dir]> (fs w)) w)
      | WriteError e None => (Throw e, w)
      | WriteError e (Some n) =>
          (Throw e,
           set_fs (<[folder := <[name := take n buffer]> dir]> (fs w)) w)
      end
  | None =>
      (Throw (MkError ("ENOENT: no such file or directory, open " +:+ folder
                       +:+ "/" +:+ name)), w)
  end.

(** [downloadTs], given the outcome of [await fetch(url)] and the outcome
    of the write. *)
Definition downloadTs (res : fetch_outcome) (wr : write_outcome) (index : N)
    (folder : string) (w : World) : outcome unit * World :=
  match res with
  | NetworkError e => (Throw e, w)
  | Response status body =>
      if negb (ok status) then
        (Throw (MkError ("HTTP " +:+ Js.toString status)), w)
      else
        match writeFile folder (filename index) body wr w with
        | (Ok _, w') => (Ok tt, increment w')
        | (Throw e, w') => (Throw e, w')
        end
  end.

(** ** The environment of one run

    Everything the program does not decide: the outcome of every request
    (prophesied per request), the outcome of the write of every segment
    (prophesied per segment and attempt), the clock, the answer of the
    interactive prompt, [path.dirname], how a read stream cuts a file into
    chunks, whether removing a directory fails and, when it does, which
    entries of the directory are still there. *)

Inductive request :=
| ReqIsMaster
| ReqChoose
| ReqParse
| ReqSegment (index : N) (attempt : nat).

Record Env := {
  fetch : request -> string -> fetch_outcome;
  write : N -> nat -> write_outcome;
  dateNow : N;
  prompt : list streamInfo -> nat;
  dirname : string -> string;
  readChunks : list Byte.byte -> list (list Byte.byte);
  readChunks_concat : forall b, concat (readChunks b) = b;
  rmError : string -> option JsError;
  rmLeft : string -> string -> bool
}.

(** ** Assembler *)

(** [path.join(folder, f)] for an entry [f] of [folder]. *)
Definition path_join (folder f : string) : string * string := (folder, f).

(** [fs.promises.readdir]: the entry names, in an order the platform
    chooses. *)
Definition readdir (dir : gmap string (list Byte.byte)) : list string :=
  (map_to_list dir).*1.

(** [Array.prototype.sort()] without a comparator: ascending code units. *)
Definition sort (l : list string) : list string := merge_sort String.le l.

(** One call [writeStream.write(chunk)], with the file the chunk was read
    from. *)
Record writeCall := { source : string * string; chunk : list Byte.byte }.

(** The bytes a write stream has been given so far. *)
Definition written (calls : list writeCall) : list Byte.byte :=
  concat (map chunk calls).

(** [fs.createReadStream(file)] up to its [end] event: the data events in
    order, or an [error] event. *)
Definition readStream (env : Env) (w : World) (file : string * string)
  : outcome (list (list Byte.byte)) :=
  match fs w !! file.1 with
  | Some dir =>
      match dir !! file.2 with
      | Some content => Ok (readChunks env content)
      | None =>
          Throw (MkError ("ENOENT: no such file or directory, open "
                          +:+ file.1 +:+ "/" +:+ file.2))
      end
  | None =>
      Throw (MkError ("ENOENT: no such file or directory, open "
                      +:+ file.1 +:+ "/" +:+ file.2))
  end.

(** The loop [for (const file of files)]: every data event of a file is
    written before its [end] event resolves the awaited promise, and only
    then is the next file opened. *)
Fixpoint pipeFiles (env : Env) (w : World) (files : list (string * string))
    (writeStream : list writeCall) : outcome unit * list writeCall :=
  match files with
  | [] => (Ok tt, writeStream)
  | file :: rest =>
      match readStream env w file with
      | Ok chunks =>
          pipeFiles env w rest
            (foldl (fun ws c => ws ++ [ {| source := file; chunk := c |} ])%list
               writeStream chunks)
      | Throw e => (Throw e, writeStream)
      end
  end.

(** [fs.promises.mkdir(dir, { recursive: true })]. *)
Definition mkdir_p (d : string) (w : World) : World :=
  match fs w !! d with
  | Some _ => w
  | None => set_fs (<[d := ∅]> (fs w)) w
  end.

Definition mergeTsFiles (env : Env) (folder outputPath : string) (w : World)
  : outcome unit * World :=
  match fs w !! folder with
  | None =>
      (Throw (MkError ("ENOENT: no such file or directory, scandir " +:+ folder)), w)
  | Some dir =>
      let files :=
        map (path_join folder)
          (sort (filter (fun f => Js.endsWith ".ts" f = true) (readdir dir))) in
      if Nat.eqb (length files) 0 then
        (Ok tt, console_log "No TS files found to merge" w)
      else
        let outputDir := dirname env outputPath in
        let w1 := mkdir_p outputDir w in
        let w2 := set_outputs (<[outputPath := []]> (outputs w1)) w1 in
        match pipeFiles env w2 files [] with
        | (Ok _, calls) =>
            (Ok tt, set_outputs (<[outputPath := written calls]> (outputs w2)) w2)
        | (Throw e, calls) =>
            (Throw e, set_outputs (<[outputPath := written calls]> (outputs w2)) w2)
        end
  end.

(** ** Workspace manager *)

(** [fs.rmSync(folder, { recursive: true, force: true })]: with [force] a
    missing path is not an error; any other failure of the removal is
    thrown.  The entries are removed before the directory itself, so a
    removal that fails leaves the directory with the entries it had not
    removed yet (none, when it is the directory that cannot be removed). *)
Definition cleanup (env : Env) (folder : string) (w : World)
  : outcome unit * World :=
  match fs w !! folder with
  | None => (Ok tt, w)
  | Some dir =>
      match rmError env folder with
      | Some e =>
          (Throw e,
           set_fs (<[folder := filter (fun entry => rmLeft env folder entry.1 = true)
                                 dir]> (fs w)) w)
      | None => (Ok tt, set_fs (delete folder (fs w)) w)
      end
  end.

(** ** Concurrency scheduler

    [runWithConcurrency] is a transition system.  A task is called to get
    its promise; the promise is identified by the position of its task.  A
    pending promise has a continuation, resumed by the event loop one await
    at a time, and is fulfilled when its continuation ends (the tasks of
    this program never reject).  The reaction registered by [p.finally]
    removes a settled promise from [running] in a later microtask; it is
    registered before any reaction of [Promise.race], so the loop is never
    resumed from a race before the winner has left [running]. *)

Section Scheduler.
Context {Task Cont W : Type}.

(** [task()]: the continuation of the new promise. *)
Variable start : Task -> Cont.
(** One resumption of a continuation: [None] when the promise settles. *)
Variable resume : Cont -> W -> option Cont * W.

Variable tasks : list Task.
Variable limit : nat.

(** Where the body of [runWithConcurrency] stands. *)
Inductive control :=
| Loop                              (* about to take the next task *)
| AwaitRace (raced : gset nat)      (* await Promise.race(running) *)
| AwaitAll (awaited : gset nat)     (* await Promise.all([...running]) *)
| Done.                             (* returned *)

Record sched := {
  pc : control;
  next : nat;                       (* position of the loop in [tasks] *)
  running : gset nat;               (* the set [running] *)
  pending : gmap nat Cont;          (* promises in flight *)
  started : list Task;              (* tasks called so far, in order *)
  world : W
}.

Definition init (w : W) : sched :=
  {| pc := Loop; next := 0; running := ∅; pending := ∅; started := []; world := w |}.

Inductive step : sched -> sched -> Prop :=
(* const p = task(); running.add(p); p.finally(...);
   if (running.size >= limit) await Promise.race(running) *)
| step_start s t :
    pc s = Loop ->
    tasks !! next s = Some t ->
    let running' := {[next s]} ∪ running s in
    step s {| pc := if decide (limit <= size running') then AwaitRace running'
                    else Loop;
              next := S (next s);
              running := running';
              pending := <[next s := start t]> (pending s);
              started := (started s ++ [t])%list;
              world := world s |}
(* the loop is over: await Promise.all([...running]) *)
| step_exit s :
    pc s = Loop ->
    tasks !! next s = None ->
    step s {| pc := AwaitAll (running s); next := next s; running := running s;
              pending := pending s; started := started s; world := world s |}
(* a promise in flight is resumed and awaits again *)
| step_task s i k k' w' :
    pending s !! i = Some k ->
    resume k (world s) = (Some k', w') ->
    step s {| pc := pc s; next := next s; running := running s;
              pending := <[i := k']> (pending s); started := started s;
              world := w' |}
(* a promise in flight is resumed and settles *)
| step_settle s i k w' :
    pending s !! i = Some k ->
    resume k (world s) = (None, w') ->
    step s {| pc := pc s; next := next s; running := running s;
              pending := delete i (pending s); started := started s;
              world := w' |}
(* the reaction of a settled promise: running.delete(p) *)
| step_finally s i :
    i ∈ running s ->
    pending s !! i = None ->
    step s {| pc := pc s; next := next s; running := running s ∖ {[i]};
              pending := pending s; started := started s; world := world s |}
(* the race is won by a promise that has settled and left [running] *)
| step_race s raced i :
    pc s = AwaitRace raced ->
    i ∈ raced ->
    i ∉ running s ->
    step s {| pc := Loop; next := next s; running := running s;
              pending := pending s; started := started s; world := world s |}
(* every awaited promise has settled *)
| step_all s awaited :
    pc s = AwaitAll awaited ->
    (forall i, i ∈ awaited -> pending s !! i = None) ->
    step s {| pc := Done; next := next s; running := running s;
              pending := pending s; started := started s; world := world s |}.

(** The promises in flight: started and not settled. *)
Definition inFlight (s : sched) : gset nat := dom (pending s).

(** A complete call of [runWithConcurrency(tasks, limit)] from the world
    [w]: it returns in the world [w']. *)
Definition runWithConcurrency (w w' : W) : Prop :=
  exists s, rtc step (init w) s /\ pc s = Done /\ world s = w'.

End Scheduler.

(** ** The driver *)

(** One element of [tasks]: the closure over [url] and [index]. *)
Record segment := { seg_url : string; seg_index : N }.

(** [() => downloadTs(url, index, tempFolder, progressBar)] as an operation:
    the state counts the requests made so far for this segment. *)
Definition downloadAttempt (env : Env) (folder : string) (t : segment)
  : @operation (nat * World) unit :=
  fun '(attempt, w) =>
    let '(o, w') :=
      downloadTs (fetch env (ReqSegment (seg_index t) attempt) (seg_url t))
        (write env (seg_index t) attempt) (seg_index t) folder w in
    (o, (S attempt, w')).

(** The body of a task: [try { await retry(...) } catch (err) { ... }].
    Every thrown value is an [Error], so the line is always printed (the
    pictograph that starts it in the source lies outside the code units of
    the model and is left out). *)
Definition segmentTask (env : Env) (folder : string) (t : segment) (w : World)
  : outcome unit * World :=
  match retry_default (fun _ s => s) (downloadAttempt env folder t) (0, w) with
  | (Ok _, (_, w')) => (Ok tt, w')
  | (Throw err, (_, w')) =>
      (Ok tt,
       console_log ("Download failed: " +:+ seg_url t +:+ " - " +:+ message err) w')
  end.

(** [path.join('ts_temp', Date.now().toString())]. *)
Definition tempFolderOf (env : Env) : string :=
  "ts_temp" +:+ "/" +:+ Js.toString (dateNow env).

(** [tsUrls.map((url, index) => ...)]. *)
Definition tasksOf (tsUrls : list string) : list segment :=
  imap (fun index url => {| seg_url := url; seg_index := N.of_nat index |}) tsUrls.

(** The first statements of [downloadM3u8], down to [parseM3u8]. *)
Definition resolveManifest (env : Env) (m3u8Url : string) : outcome (list string) :=
  match isMasterPlaylist (fetch env ReqIsMaster m3u8Url) with
  | Throw e => Throw e
  | Ok isMaster =>
      match (if isMaster
             then chooseM3u8 (fetch env ReqChoose m3u8Url) m3u8Url (prompt env)
             else Ok m3u8Url) with
      | Throw e => Throw e
      | Ok m3u8Url' => parseM3u8 (fetch env ReqParse m3u8Url') m3u8Url'
      end
  end.

(** Creation of the workspace and [progressBar.start(tsUrls.length, 0)]. *)
Definition prepare (env : Env) (w : World) : World :=
  let w1 := mkdir_p (tempFolderOf env) w in
  {| fs := fs w1; outputs := outputs w1; progress := 0; console := console w1 |}.

(** The statements after [runWithConcurrency]. *)
Definition finish (env : Env) (outputPath : string) (w : World)
  : outcome unit * World :=
  let w1 := console_log "Merge TS files......" w in
  match mergeTsFiles env (tempFolderOf env) outputPath w1 with
  | (Throw e, w2) => (Throw e, w2)
  | (Ok _, w2) =>
      let w3 := console_log ("Video is saved as: " +:+ outputPath) w2 in
      cleanup env (tempFolderOf env) w3
  end.

(** The transition system of the scheduler over the tasks of a run: a task
    is one atomic resumption (its requests are prophesied by the
    environment, and it shares nothing with the other tasks but the world
    it acts on), and its promise is always fulfilled. *)
Definition segStep (env : Env) (tsUrls : list string) (maxConcurrency : nat) :=
  step (fun t : segment => t)
    (fun t w => (None, (segmentTask env (tempFolderOf env) t w).2))
    (tasksOf tsUrls) maxConcurrency.

(** [await runWithConcurrency(tasks, maxConcurrency)]. *)
Definition segRun (env : Env) (tsUrls : list string) (maxConcurrency : nat) :=
  runWithConcurrency (fun t : segment => t)
    (fun t w => (None, (segmentTask env (tempFolderOf env) t w).2))
    (tasksOf tsUrls) maxConcurrency.

(** [downloadM3u8(m3u8Url, maxConcurrency, outputPath)] from the world [w]:
    the outcomes and final worlds of its complete runs. *)
Inductive downloadM3u8 (env : Env) (m3u8Url : string) (maxConcurrency : nat)
    (outputPath : string) (w : World) : outcome unit * World -> Prop :=
| run_unresolved e :
    resolveManifest env m3u8Url = Throw e ->
    downloadM3u8 env m3u8Url maxConcurrency outputPath w (Throw e, w)
| run_resolved tsUrls w1 :
    resolveManifest env m3u8Url = Ok tsUrls ->
    segRun env tsUrls maxConcurrency (prepare env w) w1 ->
    downloadM3u8 env m3u8Url maxConcurrency outputPath w
      (finish env outputPath w1).

(** ** Reference definitions for the resolver *)

(** The rule the resolver applies to a locator line. *)
Definition locatorOf (baseUrl line : string) : string :=
  if Js.startsWith "http" line then line else baseUrl +:+ "/" +:+ line.

(** A line kept by [parseM3u8]: not blank and not a comment. *)
Definition segmentLine (line : string) : Prop :=
  line <> "" /\ Js.startsWith "#" line = false.

(** A stream-variant directive line. *)
Definition directive (line : string) : Prop :=
  Js.startsWith "#EXT-X-STREAM-INF" line = true.

(** For every directive line, the line right after it, if there is one. *)
Fixpoint followers (lines : list string) : list (option string) :=
  match lines with
  | [] => []
  | line :: rest =>
      (if decide (directive line) then [head rest] else []) ++ followers rest
  end.

(** The pairing as the specification words it: a directive gets the next
    line that is neither blank nor a comment, and a directive without such a
    line gives no variant. *)
Fixpoint specLocators (baseUrl : string) (lines : list string) : list string :=
  match lines with
  | [] => []
  | line :: rest =>
      (if decide (directive line) then
         match list_find segmentLine rest with
         | Some (_, l) => [locatorOf baseUrl l]
         | None => []
         end
       else []) ++ specLocators baseUrl rest
  end.

(** A locator is the line itself exactly when the line begins with the four
    characters [http], and otherwise the base address, one slash and the
    line. *)
Definition verbatimOrRebased (baseUrl line locator : string) : Prop :=
  ((exists rest, line = "http" +:+ rest) /\ locator = line)
  \/ ((~ exists rest, line = "http" +:+ rest)
      /\ locator = baseUrl +:+ "/" +:+ line).

(** The lines that follow a directive line, in order. *)
Definition nextLines (lines : list string) : list string :=
  omap id (followers lines).

(** A master playlist whose first directive is followed by a blank line. *)
Definition blankAfterDirective : list Byte.byte :=
  String.list_byte_of_string "#EXTM3U
#EXT-X-STREAM-INF:BANDWIDTH=1280000

low/index.m3u8".

(** A document with the directive inside a line, not at its start. *)
Definition directiveInside : list Byte.byte :=
  String.list_byte_of_string "#EXTM3U
# see #EXT-X-STREAM-INF below
".

(** Two variants, one located by [ftp://...] and one by [httpfoo...]. *)
Definition twoVariants : list Byte.byte :=
  String.list_byte_of_string "#EXTM3U
#EXT-X-STREAM-INF:BANDWIDTH=1
ftp://x/low.m3u8
#EXT-X-STREAM-INF:BANDWIDTH=2
httpfoo.m3u8
".

(** Two segments with the same two kinds of locators. *)
Definition twoSegments : list Byte.byte :=
  String.list_byte_of_string "#EXTM3U
ftp://x/s.ts
httpfoo.ts
".

(** An operation that fails on its first two invocations and succeeds
    afterwards; its state counts the invocations. *)
Definition failsTwice : @operation nat string :=
  fun n =>
    (if Nat.ltb n 2 then Throw (MkError ("failure " +:+ Js.toString (N.of_nat n)))
     else Ok "payload", S n).

(** An operation that always fails, each time with another error. *)
Definition alwaysFails : @operation nat string :=
  fun n => (Throw (MkError ("failure " +:+ Js.toString (N.of_nat n))), S n).

(** Strict lexicographic order of code units, the order of [sort]. *)
Definition sortsBefore (a b : string) : Prop := String.ltb a b = true.

(** The file names of the indices [0 .. count] are in increasing order, one
    after the other. *)
Definition adjacentInOrder (count : N) : bool :=
  (N.iter count
     (fun '(n, okay) =>
        (N.succ n, okay && String.ltb (filename n) (filename (N.succ n))))
     (0%N, true)).2.

(** The calls [writeStream.write] made while the file [f] of [folder] is
    read: one per chunk, in order. *)
Definition writesOf (env : Env) (folder : string)
    (dir : gmap string (list Byte.byte)) (f : string) : list writeCall :=
  map (fun c => {| source := path_join folder f; chunk := c |})
    (readChunks env (default [] (dir !! f))).

(** An environment for the examples: read streams cut a file after its
    second byte, the clock reads 1700000000000, the prompt answers the first
    choice, the removal of a directory succeeds, and of the segments of a
    run only the one of index 1 cannot be fetched: it answers 404 every
    time. *)
Definition bytesOf (s : string) : list Byte.byte := String.list_byte_of_string s.

Definition exampleFetch (r : request) (url : string) : fetch_outcome :=
  match r with
  | ReqSegment 1%N _ => Response 404 []
  | ReqSegment index _ => Response 200 (bytesOf ("segment " +:+ Js.toString index +:+ ";"))
  | _ =>
      Response 200 (bytesOf "#EXTM3U
#EXTINF:10,
s0.ts
#EXTINF:10,
s1.ts
#EXTINF:10,
s2.ts
#EXT-X-ENDLIST
")
  end.

Definition exampleEnv : Env :=
  {| fetch := exampleFetch;
     write := fun _ _ => Written;
     dateNow := 1700000000000;
     prompt := fun _ => 0;
     dirname := fun _ => "downloads";
     readChunks := fun b => [take 2 b; drop 2 b];
     readChunks_concat := fun b =>
       eq_trans (f_equal (app (take 2 b)) (app_nil_r (drop 2 b))) (take_drop 2 b);
     rmError := fun _ => None;
     rmLeft := fun _ _ => false |}.

(** A workspace where the segment of index 1 is missing. *)
Definition gapWorld : World :=
  {| fs := {[ "ts_temp/17" := {[ "00002.ts" := bytesOf "CCC";
                                 "00000.ts" := bytesOf "AAA";
                                 "note.txt" := bytesOf "zzz" ]} ]};
     outputs := ∅; progress := 2; console := [] |}.

(** ** Invariant and measure of the scheduler *)

Section SchedulerInvariant.
Context {Task Cont W : Type}.
Variable start : Task -> Cont.
Variable cost : Cont -> nat.
Variable tasks : list Task.
Variable limit : nat.

(** What holds in every reachable state when [1 <= limit]. *)
Record invariant (s : @sched Task Cont W) : Prop := {
  inv_started : started s = take (next s) tasks;
  inv_next : next s <= length tasks;
  inv_pending : dom (pending s) ⊆ running s;
  inv_running : forall i, i ∈ running s -> i < next s;
  inv_pc :
    match pc s with
    | Loop => size (running s) < limit
    | AwaitRace raced =>
        running s ⊆ raced /\ size raced <= limit /\ raced <> ∅
    | AwaitAll awaited =>
        running s ⊆ awaited /\ size awaited <= limit /\ next s = length tasks
    | Done => pending s = ∅ /\ next s = length tasks
    end
}.

(** The resumptions left to the promises in flight. *)
Definition pendingCost (m : gmap nat Cont) : nat :=
  map_fold (fun _ k acc => S (cost k) + acc) 0 m.

Definition controlWeight (c : control) : nat :=
  match c with
  | Done => 0
  | AwaitAll _ => 1
  | Loop => 2
  | AwaitRace _ => 3
  end.

(** A bound on the number of steps left: every step lowers it. *)
Definition schedMeasure (s : @sched Task Cont W) : nat :=
  controlWeight (pc s) + size (running s) + pendingCost (pending s)
  + sum_list (map (fun t => cost (start t) + 4) (drop (next s) tasks)).

End SchedulerInvariant.

(** Tasks for the examples: a task is the number of times its promise
    awaits before it settles, and the world counts the settled promises. *)
Definition countdown (k : nat) (w : nat) : option nat * nat :=
  match k with
  | O => (None, S w)
  | S k' => (Some k', w)
  end.

(** ** Reference definitions for a run *)

(** The failure of a request, if it fails: the rejection of [fetch] or the
    error thrown for a status outside 200..299. *)
Definition fetchError (res : fetch_outcome) : option JsError :=
  match res with
  | NetworkError e => Some e
  | Response status _ =>
      if ok status then None else Some (MkError ("HTTP " +:+ Js.toString status))
  end.

(** One attempt at a segment in a workspace that exists: the body is
    stored, or the attempt fails, with what a failed write left in the
    file, if it touched it. *)
Inductive attempt_outcome :=
| Stored (body : list Byte.byte)
| Failed (e : JsError) (partial : option (list Byte.byte)).

Definition attemptOf (res : fetch_outcome) (wr : write_outcome) : attempt_outcome :=
  match res with
  | NetworkError e => Failed e None
  | Response status body =>
      if ok status then
        match wr with
        | Written => Stored body
        | WriteError e partial => Failed e ((fun n => take n body) <$> partial)
        end
      else Failed (MkError ("HTTP " +:+ Js.toString status)) None
  end.

(** The four attempts the default retry budget allows for a segment. *)
Definition attemptsOf (env : Env) (t : segment) : list attempt_outcome :=
  map (fun attempt =>
         attemptOf (fetch env (ReqSegment (seg_index t) attempt) (seg_url t))
           (write env (seg_index t) attempt))
    [0; 1; 2; 3].

(** The body of the first attempt that succeeds. *)
Fixpoint firstBody (attempts : list attempt_outcome) : option (list Byte.byte) :=
  match attempts with
  | [] => None
  | Stored body :: _ => Some body
  | Failed _ _ :: rest => firstBody rest
  end.

(** The file the attempts leave, from the file there was: the body of the
    first attempt that succeeds, or else what the last failed write that
    touched the file left in it. *)
Fixpoint fileLeft (attempts : list attempt_outcome)
    (file : option (list Byte.byte)) : option (list Byte.byte) :=
  match attempts with
  | [] => file
  | Stored body :: _ => Some body
  | Failed _ partial :: rest =>
      fileLeft rest (match partial with Some part => Some part | None => file end)
  end.

(** What is fetched for a segment, the body stored by the first attempt
    that succeeds: [None] when it fails for good. *)
Definition segmentBody (env : Env) (t : segment) : option (list Byte.byte) :=
  firstBody (attemptsOf env t).

(** The file a segment leaves in a fresh workspace: [None] when no attempt
    touched it. *)
Definition segmentFile (env : Env) (t : segment) : option (list Byte.byte) :=
  fileLeft (attemptsOf env t) None.

(** The line printed for a segment that fails for good: it carries the
    error of the last attempt. *)
Definition failureLine (env : Env) (t : segment) : string :=
  "Download failed: " +:+ seg_url t +:+ " - "
  +:+ match attemptOf (fetch env (ReqSegment (seg_index t) 3) (seg_url t))
              (write env (seg_index t) 3) with
      | Failed e _ => message e
      | Stored _ => ""
      end.

(** The segments that are fetched, with their bodies, in index order. *)
Definition fetched (env : Env) (ts : list segment) : list (N * list Byte.byte) :=
  omap (fun t => (fun body => (seg_index t, body)) <$> segmentBody env t) ts.

(** The segments that leave a file, with its content, in index order. *)
Definition stored (env : Env) (ts : list segment) : list (N * list Byte.byte) :=
  omap (fun t => (fun file => (seg_index t, file)) <$> segmentFile env t) ts.

(** The world with the file a task leaves put in the workspace [dir]. *)
Definition place (folder : string) (dir : gmap string (list Byte.byte))
    (index : N) (file : option (list Byte.byte)) (w : World) : World :=
  match file with
  | Some content =>
      set_fs (<[folder := <[filename index := content]> dir]> (fs w)) w
  | None => w
  end.

(** The promises that have settled: called and no longer in flight. *)
Definition settledSet {Task Cont W} (s : @sched Task Cont W) : gset nat :=
  set_seq 0 (next s) ∖ dom (pending s).

(** An environment like [exampleEnv] where the removal of a directory
    fails on the directory itself, once its entries are removed. *)
Definition lockedEnv : Env :=
  {| fetch := exampleFetch;
     write := fun _ _ => Written;
     dateNow := 1700000000000;
     prompt := fun _ => 0;
     dirname := fun _ => "downloads";
     readChunks := readChunks exampleEnv;
     readChunks_concat := readChunks_concat exampleEnv;
     rmError := fun folder =>
       Some (MkError ("EPERM: operation not permitted, rmdir " +:+ folder));
     rmLeft := fun _ _ => false |}.

(** A world with no file. *)
Definition emptyWorld : World :=
  {| fs := ∅; outputs := ∅; progress := 0; console := [] |}.

(** The workspace when the promises of [settled] have settled: the file
    of every segment among them that leaves one. *)
Definition workspaceOf (env : Env) (ts : list segment) (settled : gset nat)
    (dir : gmap string (list Byte.byte)) : Prop :=
  forall name body,
    dir !! name = Some body <->
    exists i t, i ∈ settled /\ ts !! i = Some t
      /\ name = filename (seg_index t) /\ segmentFile env t = Some body.

(** The world when the promises of [settled] have settled, in a run started
    in the world [w0]. *)
Definition runInvariant (env : Env) (w0 : World) (ts : list segment)
    (settled : gset nat) (w : World) : Prop :=
  (exists dir, fs w = <[tempFolderOf env := dir]> (fs w0)
     /\ workspaceOf env ts settled dir)
  /\ outputs w = outputs w0
  /\ (forall i t, i ∈ settled -> ts !! i = Some t -> segmentBody env t = None ->
        failureLine env t ∈ console w).

(** * Properties *)

(** ** String primitives *)

(** ** Further reference definitions *)

(** What [retry] does, as seen from outside: invocations of the operation
    and delays. *)
Inductive event (T : Type) :=
| Invoked (o : outcome T)
| Slept (delay : N).
Arguments Invoked {T} o.
Arguments Slept {T} delay.

(** Observation of the invocations, in a trace kept beside the state. *)
Definition traced {St T} (fn : @operation St T)
  : @operation (St * list (event T)) T :=
  fun '(s, tr) => let '(o, s') := fn s in (o, (s', tr ++ [Invoked o])).

(** Observation of the delays, in the same trace. *)
Definition traced_sleep {St T} (sleep : N -> St -> St)
  : N -> St * list (event T) -> St * list (event T) :=
  fun d '(s, tr) => (sleep d s, tr ++ [Slept d]).

(** Invocations with one delay between each and the next. *)
Fixpoint withDelays {T} (delay : N) (outcomes : list (outcome T)) : list (event T) :=
  match outcomes with
  | [] => []
  | o :: rest =>
      match rest with
      | [] => [Invoked o]
      | _ :: _ => Invoked o :: Slept delay :: withDelays delay rest
      end
  end.

(** The number written in decimal digits, leading zeros allowed. *)
Definition readDigits (s : string) : option N :=
  N.of_uint <$> NilEmpty.uint_of_string s.

(** What holds in every reachable state of the scheduler, whatever the
    limit. *)
Record looseInvariant {Task Cont W} (tasks : list Task)
    (s : @sched Task Cont W) : Prop := {
  loose_started : started s = take (next s) tasks;
  loose_next : next s <= length tasks;
  loose_pending : dom (pending s) ⊆ running s;
  loose_running : forall i, i ∈ running s -> i < next s;
  loose_pc :
    match pc s with
    | Loop => True
    | AwaitRace raced => running s ⊆ raced /\ raced <> ∅
    | AwaitAll awaited => running s ⊆ awaited /\ next s = length tasks
    | Done => pending s = ∅ /\ next s = length tasks
    end
}.

(** What holds besides when the limit is 0 or 1: the loop only goes on
    once the promise it has just started has settled and left [running]. *)
Definition oneAtATime {Task Cont W} (s : @sched Task Cont W) : Prop :=
  match pc s with
  | Loop => running s = ∅
  | AwaitRace raced => raced = {[pred (next s)]} /\ 0 < next s /\ running s ⊆ raced
  | AwaitAll awaited => running s = ∅
  | Done => running s = ∅
  end.

(** The effects of atomic tasks, one after the other. *)
Definition runAll {Task W} (run : Task -> W -> W) (w : W) (ts : list Task) : W :=
  foldl (fun w t => run t w) w ts.

(** The line ending of a manifest written with carriage returns. *)
Definition carriageReturn : ascii := Ascii.ascii_of_nat 13.
Definition crlf : string := String carriageReturn (String newline "").
Definition lf : string := String newline "".

(** A manifest with carriage returns, and the same without. *)
Definition crlfManifest : string :=
  "#EXTM3U" +:+ crlf +:+ "s0.ts" +:+ crlf +:+ "http://x/s1.ts" +:+ crlf.
Definition lfManifest : string :=
  "#EXTM3U" +:+ lf +:+ "s0.ts" +:+ lf +:+ "http://x/s1.ts" +:+ lf.

(** The characters of a string. *)
Definition chars (s : string) : list ascii := String.list_ascii_of_string s.

(** The three attributes of a directive line, as [chooseM3u8] reads them. *)
Definition attributesOf (line : string)
  : option string * option string * option string :=
  (execName line, execResolution line, execBandwidth line).

(** An environment like [exampleEnv] where no segment can be fetched. *)
Definition outageFetch (r : request) (url : string) : fetch_outcome :=
  match r with
  | ReqSegment _ _ => Response 503 []
  | _ => exampleFetch r url
  end.

Definition outageEnv : Env :=
  {| fetch := outageFetch;
     write := write exampleEnv;
     dateNow := dateNow exampleEnv;
     prompt := prompt exampleEnv;
     dirname := dirname exampleEnv;
     readChunks := readChunks exampleEnv;
     readChunks_concat := readChunks_concat exampleEnv;
     rmError := rmError exampleEnv;
     rmLeft := rmLeft exampleEnv |}.

(** An environment like [exampleEnv] where the disk is full when the
    segment of index 2 is written: every write of it fails after four
    bytes. *)
Definition fullDiskEnv : Env :=
  {| fetch := exampleFetch;
     write := fun index _ =>
       if N.eqb index 2
       then WriteError (MkError "ENOSPC: no space left on device, write") (Some 4)
       else Written;
     dateNow := dateNow exampleEnv;
     prompt := prompt exampleEnv;
     dirname := dirname exampleEnv;
     readChunks := readChunks exampleEnv;
     readChunks_concat := readChunks_concat exampleEnv;
     rmError := rmError exampleEnv;
     rmLeft := rmLeft exampleEnv |}.

(** An environment like [exampleEnv] where every address answers 404. *)
Definition missingEnv : Env :=
  {| fetch := fun _ _ => Response 404 [];
     write := write exampleEnv;
     dateNow := dateNow exampleEnv;
     prompt := prompt exampleEnv;
     dirname := dirname exampleEnv;
     readChunks := readChunks exampleEnv;
     readChunks_concat := readChunks_concat exampleEnv;
     rmError := rmError exampleEnv;
     rmLeft := rmLeft exampleEnv |}.

(** ** The command line

    The action of the command, where [concurrency] is the number
    [Number(options.concurrency)] and [output] is [options.output]: the
    result is the status given to [process.exit], if it is called, and the
    final world.  (The pictograph that starts the line lies outside the
    code units of the model and is left out.) *)
Inductive action (env : Env) (m3u8Url : string) (concurrency : nat)
    (output : string) (w : World) : option nat * World -> Prop :=
| action_returns w' :
    downloadM3u8 env m3u8Url concurrency output w (Ok tt, w') ->
    action env m3u8Url concurrency output w (None, w')
| action_exits err w' :
    downloadM3u8 env m3u8Url concurrency output w (Throw err, w') ->
    action env m3u8Url concurrency output w
      (Some 1, console_log ("Download failed: " +:+ message err) w').

Lemma append_String c a b : String c a +:+ b = String c (a +:+ b).
Proof. reflexivity. Qed.

Lemma startsWith_spec p s :
  Js.startsWith p s = true <-> exists rest, s = p +:+ rest.
Proof.
  unfold Js.startsWith. revert s.
  induction p as [|a p IH]; intros s; simpl.
  - destruct s; split; eauto.
  - destruct s as [|b s]; simpl.
    + split; [done | intros [? ?]; done].
    + destruct (ascii_dec a b) as [->|Hne].
      * rewrite IH. split; intros [rest Hr]; exists rest;
          rewrite append_String in *; congruence.
      * split; [done | intros [? Hr]; rewrite append_String in Hr; congruence].
Qed.

Lemma truthy_spec s : Js.truthy s = true <-> s <> "".
Proof.
  unfold Js.truthy. destruct (String.eqb_spec s ""); simpl; split; congruence.
Qed.

Lemma kept_segmentLine line :
  Js.truthy line && negb (Js.startsWith "#" line) = true <-> segmentLine line.
Proof.
  unfold segmentLine.
  rewrite andb_true_iff, negb_true_iff, truthy_spec. done.
Qed.

(** The rule, in words: verbatim exactly when the line begins with the four
    characters [http]; otherwise base address, one slash, the line. *)
Lemma locatorOf_spec baseUrl line :
  ((exists rest, line = "http" +:+ rest) /\ locatorOf baseUrl line = line)
  \/ ((~ exists rest, line = "http" +:+ rest)
      /\ locatorOf baseUrl line = baseUrl +:+ "/" +:+ line).
Proof.
  unfold locatorOf. destruct (Js.startsWith "http" line) eqn:E.
  - left. split; [by apply startsWith_spec | done].
  - right. split; [|done]. intros H%startsWith_spec. congruence.
Qed.

(** What [parseM3u8] returns on a fetched manifest. *)
Lemma parseM3u8_ok status body m3u8Url :
  ok status = true ->
  parseM3u8 (Response status body) m3u8Url
  = Ok (map (locatorOf (baseUrlOf m3u8Url))
          (filter segmentLine (map Js.trim (Js.split newline (text_of body))))).
Proof.
  intros Hok. unfold parseM3u8. rewrite Hok. simpl. f_equal.
  rewrite (list_filter_iff _ segmentLine) by (intros; apply kept_segmentLine).
  done.
Qed.

(** [split] and [join] are inverse, and [split] distributes over a
    separator. *)
Lemma split_nonempty c s : Js.split c s <> [].
Proof. destruct s as [|a s]; simpl; [done|]. by repeat case_match. Qed.

Lemma join_split c s : Js.join (String c "") (Js.split c s) = s.
Proof.
  unfold Js.join. induction s as [|a s IH]; simpl; [done|].
  destruct (Ascii.eqb_spec a c) as [->|Hne].
  - pose proof (split_nonempty c s) as Hs.
    destruct (Js.split c s) as [|h t] eqn:E; [done|].
    change (String.concat (String c "") ("" :: h :: t))
      with (String c (String.concat (String c "") (h :: t))).
    by rewrite IH.
  - pose proof (split_nonempty c s) as Hs.
    destruct (Js.split c s) as [|h t] eqn:E; [done|].
    rewrite <- IH. destruct t; reflexivity.
Qed.

Lemma split_append_sep c a b :
  Js.split c (a +:+ String c b) = (Js.split c a ++ Js.split c b)%list.
Proof.
  induction a as [|x a IH].
  - change ("" +:+ String c b) with (String c b). simpl.
    by rewrite Ascii.eqb_refl.
  - rewrite append_String. simpl. rewrite IH.
    destruct (Ascii.eqb x c); [done|].
    pose proof (split_nonempty c a) as Hs.
    destruct (Js.split c a); done.
Qed.

Lemma split_no_sep c s :
  Js.includes (String c "") s = false -> Js.split c s = [s].
Proof.
  induction s as [|a s IH]; simpl; [done|].
  destruct (ascii_dec c a) as [->|Hne].
  - by destruct s.
  - simpl. intros H. rewrite IH by done.
    destruct (Ascii.eqb_spec a c); congruence.
Qed.

(** The base address of [dir/last] is [dir] when [last] has no slash. *)
Lemma baseUrlOf_spec dir last :
  Js.includes "/" last = false ->
  baseUrlOf (dir +:+ "/" +:+ last) = dir.
Proof.
  intros Hlast. unfold baseUrlOf, Js.slice_0_m1.
  change ("/" +:+ last) with (String "/" last).
  rewrite split_append_sep, (split_no_sep _ last) by done.
  rewrite removelast_last. apply (join_split "/").
Qed.

(** The urls of the parsed variants, directive by directive. *)
Lemma streamInfos_urls baseUrl lines :
  map url (streamInfos baseUrl lines)
  = map (fun next => match next with
                     | Some l => locatorOf baseUrl l
                     | None => baseUrl +:+ "/" +:+ Js.undefined
                     end) (followers lines).
Proof.
  induction lines as [|line rest IH]; simpl; [done|].
  rewrite !map_app, IH. f_equal.
  unfold directive. case_decide as Hd.
  - rewrite Hd. simpl. by destruct (head rest).
  - by destruct (Js.startsWith "#EXT-X-STREAM-INF" line).
Qed.

Lemma streamInfos_length baseUrl lines :
  length (streamInfos baseUrl lines) = length (followers lines).
Proof.
  rewrite <- (length_map url), streamInfos_urls. apply length_map.
Qed.

(** ** Manifest resolver *)

(** C5. On a fetched manifest [parseM3u8] returns one locator for every line
    that, once trimmed, is neither blank nor a comment, in the order of the
    lines; a line that does not begin with [http] is rebased on the base
    address, which for a manifest [dir/last] is [dir]; so [seg.ts] under
    [http://h/a/b/index.m3u8] is [http://h/a/b/seg.ts]. *)
Theorem parseM3u8_segment_locators status body m3u8Url :
  ok status = true ->
  let kept := filter segmentLine (map Js.trim (Js.split newline (text_of body))) in
  exists locators,
    parseM3u8 (Response status body) m3u8Url = Ok locators
    /\ length locators = length kept
    /\ (forall k line, kept !! k = Some line ->
          locators !! k = Some (locatorOf (baseUrlOf m3u8Url) line))
    /\ (forall dir last, Js.includes "/" last = false ->
          m3u8Url = dir +:+ "/" +:+ last -> baseUrlOf m3u8Url = dir)
    /\ locatorOf (baseUrlOf "http://h/a/b/index.m3u8") "seg.ts" = "http://h/a/b/seg.ts".
Proof.
  intros Hok kept. eexists. split; [by apply parseM3u8_ok|].
  fold kept. split; [apply length_map|]. split; [|split].
  - intros k line Hk. by rewrite list_lookup_fmap, Hk.
  - intros dir last Hlast ->. by apply baseUrlOf_spec.
  - reflexivity.
Qed.

Lemma parseM3u8_segment_locators_witness :
  exists locators,
    parseM3u8 (Response 200 (String.list_byte_of_string "#EXTM3U
seg.ts

  http://x/y.ts
# a comment
last.ts")) "http://h/a/b/index.m3u8" = Ok locators
    /\ locators = ["http://h/a/b/seg.ts"; "http://x/y.ts"; "http://h/a/b/last.ts"].
Proof.
  destruct (parseM3u8_segment_locators 200 (String.list_byte_of_string "#EXTM3U
seg.ts

  http://x/y.ts
# a comment
last.ts") "http://h/a/b/index.m3u8" eq_refl) as (locators & Hrun & _).
  exists locators. split; [exact Hrun|].
  vm_compute in Hrun. by injection Hrun.
Defined.

Lemma locatorOf_verbatimOrRebased baseUrl line :
  verbatimOrRebased baseUrl line (locatorOf baseUrl line).
Proof. apply locatorOf_spec. Qed.

(** What [chooseM3u8] does on a fetched master playlist. *)
Lemma chooseM3u8_ok status body masterUrl prompt :
  ok status = true ->
  let infos := streamInfos (baseUrlOf masterUrl)
                 (map Js.trim (Js.split newline (text_of body))) in
  chooseM3u8 (Response status body) masterUrl prompt
  = match infos with
    | [] => Throw (MkError "No media streams found in master playlist")
    | _ :: _ =>
        match infos !! prompt infos with
        | Some info => Ok (url info)
        | None => Throw (MkError "Cannot read properties of undefined (reading 'url')")
        end
    end.
Proof.
  intros Hok infos. unfold chooseM3u8. rewrite Hok. simpl. fold infos.
  by destruct infos.
Qed.

Lemma followers_all_some lines :
  (forall l, last lines = Some l -> ~ directive l) ->
  followers lines = map Some (nextLines lines).
Proof.
  unfold nextLines. induction lines as [|line rest IH]; [done|].
  intros Hlast.
  assert (Hrest : rest <> [] ->
            followers rest = map Some (omap id (followers rest))).
  { intros Hne. apply IH. intros l' Hl'. apply Hlast.
    destruct rest; [done|]. by rewrite last_cons, Hl'. }
  cbn [followers]. case_decide as Hd.
  - destruct rest as [|l rest'] eqn:E.
    + exfalso. by apply (Hlast line).
    + rewrite <- E in *. assert (Hne : rest <> []) by by rewrite E.
      replace (head rest) with (Some l) by by rewrite E.
      change (omap id ([Some l] ++ followers rest))
        with (l :: omap id (followers rest)).
      cbn [map app]. by rewrite <- Hrest.
  - destruct rest as [|l rest'] eqn:E; [done|].
    rewrite <- E in *. apply Hrest. by rewrite E.
Qed.

Lemma followers_lookup lines i d l :
  lines !! i = Some d -> directive d -> lines !! S i = Some l ->
  Some l ∈ followers lines.
Proof.
  revert i. induction lines as [|line rest IH]; intros i Hi Hd Hl; [done|].
  simpl. destruct i as [|i]; simpl in *.
  - injection Hi as ->. rewrite decide_True by done.
    destruct rest; simplify_eq/=. set_solver.
  - apply elem_of_app. right. by eapply IH.
Qed.

(** C4 (counterexample). A directive followed by a blank line does not get
    the next non-blank line: its locator is the base address and a slash. *)
Lemma chooseM3u8_blank_line_counterexample :
  let lines := map Js.trim (Js.split newline (text_of blankAfterDirective)) in
  map url (streamInfos "http://h/a" lines) = ["http://h/a/"]
  /\ specLocators "http://h/a" lines = ["http://h/a/low/index.m3u8"]
  /\ map url (streamInfos "http://h/a" lines) <> specLocators "http://h/a" lines
  /\ chooseM3u8 (Response 200 blankAfterDirective) "http://h/a/master.m3u8"
        (fun _ => 0) = Ok "http://h/a/".
Proof. vm_compute. repeat split; congruence. Qed.

(** C4 (amended). In every document, each directive line is paired with
    the line right after it, whatever that line is, and the locator is that
    line, rebased unless it begins with [http]: the variants are as many as
    the directives and in their order, and the variant of a directive that
    has a following line has the locator of that line; so a directive
    followed by a blank line has the base address and a slash as its
    locator.  When the last line is not a directive, the locators of the
    variants are exactly those of the lines that follow the directives. *)
Theorem chooseM3u8_pairs_next_line baseUrl lines :
  Forall2 (fun next info =>
             forall l, next = Some l -> url info = locatorOf baseUrl l)
    (followers lines) (streamInfos baseUrl lines)
  /\ (forall i d l, lines !! i = Some d -> directive d -> lines !! S i = Some l ->
        locatorOf baseUrl l ∈ map url (streamInfos baseUrl lines))
  /\ (forall i d, lines !! i = Some d -> directive d -> lines !! S i = Some "" ->
        baseUrl +:+ "/" ∈ map url (streamInfos baseUrl lines))
  /\ ((forall l, last lines = Some l -> ~ directive l) ->
      map url (streamInfos baseUrl lines)
      = map (locatorOf baseUrl) (nextLines lines)).
Proof.
  assert (Hin : forall i d l, lines !! i = Some d -> directive d ->
                  lines !! S i = Some l ->
                  locatorOf baseUrl l ∈ map url (streamInfos baseUrl lines)).
  { intros i d l Hi Hd Hl. rewrite streamInfos_urls.
    apply (list_elem_of_fmap_2
             (fun next => match next with
                          | Some l => locatorOf baseUrl l
                          | None => baseUrl +:+ "/" +:+ Js.undefined
                          end) (followers lines) (Some l)).
    by apply (followers_lookup lines i d l). }
  split; [|split; [done|split]].
  - induction lines as [|line rest IH]; [constructor|].
    cbn [followers streamInfos]. apply Forall2_app.
    + unfold directive. case_decide as Hd; rewrite ?Hd.
      * constructor; [|constructor]. intros l Hl. cbn [url].
        rewrite Hl. unfold locatorOf, Js.interpolate.
        by destruct (Js.startsWith "http" l).
      * destruct (Js.startsWith "#EXT-X-STREAM-INF" line); [done | constructor].
    + apply IH. intros i d l Hi Hd Hl.
      pose proof (followers_lookup rest i d l Hi Hd Hl) as Hf.
      rewrite streamInfos_urls.
      by apply (list_elem_of_fmap_2
                  (fun next => match next with
                               | Some l => locatorOf baseUrl l
                               | None => baseUrl +:+ "/" +:+ Js.undefined
                               end) (followers rest) (Some l)).
  - intros i d Hi Hd Hl. apply (Hin i d "" Hi Hd Hl).
  - intros Hlast. rewrite streamInfos_urls, followers_all_some by done.
    by rewrite map_map.
Qed.

Lemma chooseM3u8_pairs_next_line_witness :
  let lines := map Js.trim (Js.split newline (text_of blankAfterDirective)) in
  map url (streamInfos "http://h/a" lines)
  = map (locatorOf "http://h/a") (nextLines lines).
Proof.
  intros lines.
  refine (proj2 (proj2 (proj2 (chooseM3u8_pairs_next_line "http://h/a" lines))) _).
  intros l Hl Hd. vm_compute in Hl. injection Hl as <-. vm_compute in Hd. discriminate.
Defined.

(** A directive on the last line has no following line: the variant is
    still pushed, and its locator ends in the text of [undefined]. *)
Lemma chooseM3u8_trailing_directive :
  map url (streamInfos "http://h/a" ["#EXTM3U"; "#EXT-X-STREAM-INF:BANDWIDTH=1"])
  = ["http://h/a/undefined"].
Proof. reflexivity. Qed.

(** C9. On a fetched master playlist [chooseM3u8] throws the no-streams
    error exactly when no variant was parsed; when variants were parsed and
    the prompt answers one of them, the locator of that variant is
    returned.  A document can be classified as multi-variant and have no
    variant. *)
Theorem chooseM3u8_no_variants status body masterUrl prompt :
  ok status = true ->
  let infos := streamInfos (baseUrlOf masterUrl)
                 (map Js.trim (Js.split newline (text_of body))) in
  (chooseM3u8 (Response status body) masterUrl prompt
   = Throw (MkError "No media streams found in master playlist")
   <-> infos = [])
  /\ (infos <> [] -> prompt infos < length infos ->
      exists info, infos !! prompt infos = Some info
        /\ chooseM3u8 (Response status body) masterUrl prompt = Ok (url info))
  /\ (isMasterPlaylist (Response 200 directiveInside) = Ok true
      /\ chooseM3u8 (Response 200 directiveInside) masterUrl prompt
         = Throw (MkError "No media streams found in master playlist")).
Proof.
  intros Hok infos. rewrite chooseM3u8_ok by done. fold infos.
  split; [|split].
  - destruct infos as [|info infos']; [done|].
    split; [|done]. by destruct ((info :: infos') !! _).
  - intros Hne Hlt. destruct infos as [|info0 infos']; [done|].
    destruct (lookup_lt_is_Some_2 _ _ Hlt) as [info Hinfo].
    exists info. by rewrite Hinfo.
  - split; reflexivity.
Qed.

Lemma chooseM3u8_no_variants_witness :
  chooseM3u8 (Response 200 twoVariants) "http://h/a/master.m3u8" (fun _ => 1)
  = Ok "httpfoo.m3u8".
Proof.
  destruct (chooseM3u8_no_variants 200 twoVariants "http://h/a/master.m3u8"
              (fun _ => 1) eq_refl) as (_ & Hsome & _).
  destruct Hsome as (info & Hinfo & ->).
  - vm_compute. discriminate.
  - vm_compute. lia.
  - vm_compute in Hinfo. by injection Hinfo as <-.
Defined.

(** C10. In [parseM3u8] and in [chooseM3u8] alike a line is the locator
    itself exactly when it begins with the four characters [http], and is
    otherwise appended to the base address and one slash: [ftp://...] is
    rebased, [httpfoo...] is taken as it is. *)
Theorem locator_verbatim_iff_http_prefix status body m3u8Url :
  ok status = true ->
  let baseUrl := baseUrlOf m3u8Url in
  let lines := map Js.trim (Js.split newline (text_of body)) in
  (exists locators,
      parseM3u8 (Response status body) m3u8Url = Ok locators
      /\ Forall2 (verbatimOrRebased baseUrl) (filter segmentLine lines) locators)
  /\ (exists infos nexts,
        streamInfos baseUrl lines = infos
        /\ followers lines = nexts
        /\ Forall2 (fun next info =>
                      forall l, next = Some l -> verbatimOrRebased baseUrl l (url info))
             nexts infos)
  /\ parseM3u8 (Response 200 twoSegments) "http://h/a/index.m3u8"
     = Ok ["http://h/a/ftp://x/s.ts"; "httpfoo.ts"]
  /\ map url (streamInfos "http://h/a"
                (map Js.trim (Js.split newline (text_of twoVariants))))
     = ["http://h/a/ftp://x/low.m3u8"; "httpfoo.m3u8"].
Proof.
  intros Hok baseUrl lines. split; [|split; [|split]].
  - eexists. split; [by apply parseM3u8_ok|]. fold lines baseUrl.
    apply Forall2_fmap_r, Forall_Forall2_diag, Forall_forall.
    intros line _. apply locatorOf_verbatimOrRebased.
  - eexists _, _. split; [done|]. split; [done|].
    apply Forall2_same_length_lookup_2.
    + by rewrite streamInfos_length.
    + intros i next info Hnext Hinfo l ->.
      assert (Hu : map url (streamInfos baseUrl lines) !! i = Some (url info))
        by by rewrite list_lookup_fmap, Hinfo.
      rewrite streamInfos_urls, list_lookup_fmap, Hnext in Hu.
      injection Hu as <-. apply locatorOf_verbatimOrRebased.
  - reflexivity.
  - reflexivity.
Qed.

Lemma locator_verbatim_iff_http_prefix_witness :
  exists locators,
    parseM3u8 (Response 200 twoSegments) "http://h/a/index.m3u8" = Ok locators
    /\ Forall2 (verbatimOrRebased "http://h/a") ["ftp://x/s.ts"; "httpfoo.ts"] locators.
Proof.
  exact (proj1 (locator_verbatim_iff_http_prefix 200 twoSegments
                  "http://h/a/index.m3u8" eq_refl)).
Defined.

(** ** Retry wrapper *)

Section RetryFacts.
Context {St T : Type}.
Variable sleep : N -> St -> St.
Variable fn : @operation St T.
Variables (retries : nat) (delay : N).

(** The loop invariant: from iteration [i] with [fuel] iterations left, the
    loop invokes the operation at least once and at most [fuel] times, every
    invocation but the last fails, the last invocation decides the result,
    and a failure is only returned when the fuel is used up. *)
Lemma retry_loop_logged fuel i s log :
  fuel + i = S retries -> i <= retries ->
  exists res s' new,
    retry_loop (logged_sleep sleep) (logged fn) retries delay fuel i (s, log)
    = (res, (s', log ++ new))
    /\ retry_loop sleep fn retries delay fuel i s = (res, s')
    /\ 1 <= length new <= fuel
    /\ (forall k o, new !! k = Some o -> S k < length new -> is_throw o)
    /\ last new = Some res
    /\ (is_throw res -> length new = fuel).
Proof.
  revert i s log. induction fuel as [|fuel IH]; intros i s log Hfuel Hi; [lia|].
  simpl. destruct (fn s) as [[v|e] s1] eqn:Hfn.
  - exists (Ok v), s1, [Ok v]. simpl. repeat split; try lia; try done;
      intros k o Hk Hlt; simpl in Hlt; lia.
  - destruct (Nat.eqb_spec i retries) as [->|Hne].
    + exists (Throw e), s1, [Throw e]. simpl. repeat split; try lia; try done;
        intros k o Hk Hlt; simpl in Hlt; lia.
    + destruct (IH (S i) (sleep delay s1) (log ++ [Throw e]))
        as (res & s' & new & Hrun & Hplain & Hlen & Hfail & Hlast & Hexh);
        [lia | lia |].
      exists res, s', (Throw e :: new).
      simpl. rewrite Hrun, Hplain, <- app_assoc. simpl.
      repeat split; try lia.
      * intros [|k] o Hk Hlt; simpl in *.
        -- by injection Hk as <-.
        -- apply (Hfail k o Hk). lia.
      * rewrite last_cons, Hlast. done.
      * intros Hres. rewrite (Hexh Hres). done.
Qed.

End RetryFacts.

(** C2. [retry] invokes the operation until its first success and returns
    that value, with at most [retries + 1] invocations; when it throws, the
    operation was invoked exactly [retries + 1] times, every time failing,
    and what is thrown is the failure of the last invocation.  With the
    default budget of 3 an operation failing twice and then succeeding is
    invoked 3 times, and one that always fails 4 times. *)
Theorem retry_contract {St T : Type} (sleep : N -> St -> St)
    (fn : @operation St T) (retries : nat) (delay : N) (s : St) :
  (exists res s' log,
      retry (logged_sleep sleep) (logged fn) retries delay (s, []) = (res, (s', log))
      /\ retry sleep fn retries delay s = (res, s')
      /\ 1 <= length log <= retries + 1
      /\ (forall k o, log !! k = Some o -> S k < length log -> is_throw o)
      /\ last log = Some res
      /\ (is_throw res -> length log = retries + 1))
  /\ retry_default (fun _ n => n) failsTwice 0 = (Ok "payload", 3)
  /\ retry_default (fun _ n => n) alwaysFails 0
     = (Throw (MkError "failure 3"), 4)
  /\ (retry_default (logged_sleep (fun _ n => n)) (logged alwaysFails) (0, [])).2.2
     = [Throw (MkError "failure 0"); Throw (MkError "failure 1");
        Throw (MkError "failure 2"); Throw (MkError "failure 3")].
Proof.
  split; [|by vm_compute].
  destruct (retry_loop_logged sleep fn retries delay (S retries) 0 s [])
    as (res & s' & new & Hrun & Hplain & Hlen & Hfail & Hlast & Hexh);
    [lia | lia |].
  exists res, s', new. unfold retry. rewrite Hrun, Hplain.
  repeat split; try done; try lia.
  intros Hres. rewrite (Hexh Hres). lia.
Qed.

(** ** File names and their order *)

Lemma sortsBefore_strict a b : sortsBefore a b <-> strict String.le a b.
Proof.
  unfold sortsBefore, strict, String.le, String.ltb, String.leb.
  rewrite (String.compare_antisym b a).
  destruct (String.compare a b); simpl; intuition (done || congruence).
Qed.

Lemma sortsBefore_trans a b c : sortsBefore a b -> sortsBefore b c -> sortsBefore a c.
Proof.
  rewrite !sortsBefore_strict. intros Hab Hbc.
  eapply (strict_trans_l (R:=String.le)); [done | by apply strict_include].
Qed.

Lemma sortsBefore_le a b : sortsBefore a b -> String.le a b.
Proof. rewrite sortsBefore_strict. by intros [? _]. Qed.

Lemma adjacentInOrder_iter count :
  exists okay,
    N.iter count
      (fun '(n, okay) =>
         (N.succ n, okay && String.ltb (filename n) (filename (N.succ n))))
      (0%N, true) = (count, okay)
    /\ (okay = true ->
        forall n, (n < count)%N -> sortsBefore (filename n) (filename (N.succ n))).
Proof.
  induction count as [|count IH] using N.peano_ind.
  - exists true. split; [done|]. intros _ n Hn. lia.
  - destruct IH as (okay & Hiter & Hall). rewrite N.iter_succ, Hiter.
    eexists. split; [done|].
    intros [-> Hlast]%andb_true_iff n Hn.
    destruct (decide (n = count)) as [->|Hne]; [done|].
    apply Hall; [done | lia].
Qed.

Lemma adjacentInOrder_spec count :
  adjacentInOrder count = true ->
  forall n, (n < count)%N -> sortsBefore (filename n) (filename (N.succ n)).
Proof.
  unfold adjacentInOrder.
  destruct (adjacentInOrder_iter count) as (okay & -> & Hall). exact Hall.
Qed.

Lemma adjacentInOrder_99999 : adjacentInOrder 99999 = true.
Proof. vm_compute. reflexivity. Qed.

(** Below 100000 the order of the file names is the order of the indices. *)
Lemma filename_lt i j :
  (i < j)%N -> (j < 100000)%N -> sortsBefore (filename i) (filename j).
Proof.
  intros Hij Hj.
  assert (Hstep : forall d : nat, (i + N.of_nat d + 1 < 100000)%N ->
            sortsBefore (filename i) (filename (i + N.of_nat d + 1))).
  { induction d as [|d IH]; intros Hd.
    - replace (i + N.of_nat 0 + 1)%N with (N.succ i) by lia.
      apply (adjacentInOrder_spec _ adjacentInOrder_99999). lia.
    - eapply sortsBefore_trans; [apply IH; lia|].
      replace (i + N.of_nat (S d) + 1)%N with (N.succ (i + N.of_nat d + 1)) by lia.
      apply (adjacentInOrder_spec _ adjacentInOrder_99999). lia. }
  replace j with (i + N.of_nat (N.to_nat (j - i - 1)) + 1)%N by lia.
  apply Hstep. lia.
Qed.

Lemma filenames_sorted indices :
  StronglySorted N.lt indices ->
  Forall (fun i => (i < 100000)%N) indices ->
  StronglySorted String.le (map filename indices).
Proof.
  induction 1 as [|i indices Hsorted IH Hall]; intros Hbound; simpl.
  - constructor.
  - apply Forall_cons in Hbound as [Hi Hbound].
    constructor; [by apply IH|].
    apply Forall_fmap, Forall_forall. intros j Hj.
    apply sortsBefore_le, filename_lt.
    + by apply (proj1 (Forall_forall _ _) Hall).
    + by apply (proj1 (Forall_forall _ _) Hbound).
Qed.

(** Sorting the names of the files of increasing indices below 100000,
    listed in any order, gives them in the order of the indices. *)
Lemma sort_filenames indices names :
  StronglySorted N.lt indices ->
  Forall (fun i => (i < 100000)%N) indices ->
  names ≡ₚ map filename indices ->
  sort names = map filename indices.
Proof.
  intros Hsorted Hbound Hperm. unfold sort.
  apply (StronglySorted_unique String.le).
  - apply StronglySorted_merge_sort; apply _.
  - by apply filenames_sorted.
  - by rewrite merge_sort_Permutation.
Qed.

(** C6 (counterexample). The file name of index 99999 does not sort before
    the one of index 100000: the sort puts [100000.ts] first. *)
Lemma filename_order_counterexample :
  (99999 < 100000)%N
  /\ ~ sortsBefore (filename 99999) (filename 100000)
  /\ sort [filename 99999; filename 100000] = [filename 100000; filename 99999].
Proof. split; [done|]. split; [by vm_compute | by vm_compute]. Qed.

(** C6 (amended). For indices [i < j] below 100000 the file name of [i]
    sorts strictly before the file name of [j], so the sort of the names of
    any set of such indices is their index order. *)
Theorem filename_order_below_100000 :
  (forall i j, (i < j)%N -> (j < 100000)%N ->
      sortsBefore (filename i) (filename j))
  /\ (forall indices names,
        StronglySorted N.lt indices ->
        Forall (fun i => (i < 100000)%N) indices ->
        names ≡ₚ map filename indices ->
        sort names = map filename indices).
Proof. split; [apply filename_lt | apply sort_filenames]. Qed.

Lemma filename_order_below_100000_witness :
  sortsBefore (filename 7) (filename 12)
  /\ sort [filename 12; filename 0; filename 7] = map filename [0; 7; 12]%N.
Proof.
  split.
  - apply (proj1 filename_order_below_100000); lia.
  - apply (proj2 filename_order_below_100000).
    + repeat constructor; lia.
    + repeat constructor; lia.
    + vm_compute. etrans; [apply perm_swap|]. apply perm_skip, perm_swap.
Defined.

(** ** Assembler *)

Lemma foldl_write (file : string * string) (chunks : list (list Byte.byte))
    (ws : list writeCall) :
  foldl (fun ws c => ws ++ [ {| source := file; chunk := c |} ]) ws chunks
  = ws ++ map (fun c => {| source := file; chunk := c |}) chunks.
Proof.
  revert ws. induction chunks as [|c chunks IH]; intros ws; simpl.
  - by rewrite app_nil_r.
  - by rewrite IH, <- app_assoc.
Qed.

(** The loop writes the chunks of the files one file after the other. *)
Lemma pipeFiles_ok env w folder dir names ws :
  fs w !! folder = Some dir ->
  (forall f, f ∈ names -> is_Some (dir !! f)) ->
  pipeFiles env w (map (path_join folder) names) ws
  = (Ok tt, ws ++ flat_map (writesOf env folder dir) names).
Proof.
  intros Hdir. revert ws.
  induction names as [|f names IH]; intros ws Hall; simpl.
  - by rewrite app_nil_r.
  - destruct (Hall f) as [content Hf]; [set_solver|].
    unfold readStream. simpl. rewrite Hdir, Hf.
    rewrite foldl_write, IH by set_solver.
    rewrite <- app_assoc. unfold writesOf at 2. by rewrite Hf.
Qed.

Lemma written_app c1 c2 : written (c1 ++ c2) = written c1 ++ written c2.
Proof. unfold written. by rewrite map_app, concat_app. Qed.

Lemma written_writesOf env folder dir f :
  written (writesOf env folder dir f) = default [] (dir !! f).
Proof.
  unfold written, writesOf. rewrite map_map. simpl.
  rewrite map_id. apply readChunks_concat.
Qed.

Lemma written_flat_map env folder dir names :
  written (flat_map (writesOf env folder dir) names)
  = concat (map (fun f => default [] (dir !! f)) names).
Proof.
  induction names as [|f names IH]; simpl; [done|].
  by rewrite written_app, written_writesOf, IH.
Qed.

Lemma elem_of_readdir (dir : gmap string (list Byte.byte)) f :
  f ∈ readdir dir <-> is_Some (dir !! f).
Proof.
  unfold readdir. rewrite list_elem_of_fmap. split.
  - intros ([f' content] & -> & Hin). apply elem_of_map_to_list in Hin. by exists content.
  - intros [content Hf]. exists (f, content). split; [done|].
    by apply elem_of_map_to_list.
Qed.

(** The files the assembler merges: the entries ending in [.ts], sorted. *)
Lemma merged_names (dir : gmap string (list Byte.byte)) :
  let names := sort (filter (fun f => Js.endsWith ".ts" f = true) (readdir dir)) in
  StronglySorted String.le names
  /\ NoDup names
  /\ (forall f, f ∈ names <-> is_Some (dir !! f) /\ Js.endsWith ".ts" f = true).
Proof.
  intros names. unfold names, sort. split; [|split].
  - apply StronglySorted_merge_sort; apply _.
  - rewrite merge_sort_Permutation. apply NoDup_filter, NoDup_fst_map_to_list.
  - intros f. rewrite merge_sort_Permutation, list_elem_of_filter, elem_of_readdir.
    tauto.
Qed.

Lemma mkdir_p_lookup d w folder dir :
  fs w !! folder = Some dir -> fs (mkdir_p d w) !! folder = Some dir.
Proof.
  intros Hdir. unfold mkdir_p. destruct (fs w !! d) eqn:Hd; [done|].
  simpl. rewrite lookup_insert_ne; [done|]. intros ->. congruence.
Qed.

(** What [mergeTsFiles] does on an existing workspace, in terms of the
    sorted names. *)
Lemma mergeTsFiles_ok env folder outputPath w dir :
  fs w !! folder = Some dir ->
  let names := sort (filter (fun f => Js.endsWith ".ts" f = true) (readdir dir)) in
  mergeTsFiles env folder outputPath w
  = match names with
    | [] => (Ok tt, console_log "No TS files found to merge" w)
    | _ :: _ =>
        (Ok tt,
         set_outputs
           (<[outputPath := written (flat_map (writesOf env folder dir) names)]>
              (outputs w))
           (mkdir_p (dirname env outputPath) w))
    end.
Proof.
  intros Hdir names. unfold mergeTsFiles. rewrite Hdir. fold names.
  rewrite length_map.
  destruct (merged_names dir) as (_ & _ & Hin). fold names in Hin.
  destruct names as [|f names'] eqn:E; [done|]. rewrite <- E in *.
  replace (Nat.eqb (length names) 0) with false by by rewrite E.
  rewrite (pipeFiles_ok _ _ _ dir).
  - simpl. unfold set_outputs. simpl. f_equal. f_equal.
    rewrite insert_insert_eq. unfold mkdir_p.
    by destruct (fs w !! dirname env outputPath).
  - simpl. by apply mkdir_p_lookup.
  - intros f' Hf'. by apply Hin.
Qed.



(** ** Scheduler *)

Section SchedulerFacts.
Context {Task Cont W : Type}.
Variable start : Task -> Cont.
Variable resume : Cont -> W -> option Cont * W.
Variable cost : Cont -> nat.
Variable tasks : list Task.
Variable limit : nat.

Hypothesis resume_cost :
  forall k w k' w', resume k w = (Some k', w') -> cost k' < cost k.
Hypothesis limit_pos : 1 <= limit.

Local Abbreviation step := (step start resume tasks limit).
Local Abbreviation invariant := (@invariant Task Cont W tasks limit).
Local Abbreviation measure := (@schedMeasure Task Cont W start cost tasks).

Lemma invariant_init w : invariant (init w).
Proof.
  clear resume_cost.
  split; simpl; try done; try lia.
  all: rewrite ?size_empty; lia.
Qed.

Lemma invariant_step s s' : step s s' -> invariant s -> invariant s'.
Proof.
  clear resume_cost limit_pos.
  intros Hstep [Hstarted Hnext Hpending Hrunning Hpc].
  destruct Hstep as [s t Hloop Ht running'|s Hloop Ht|s i k k' w' Hi Hres
                    |s i k w' Hi Hres|s i Hi Hnone|s raced i Hrace Hi Hni
                    |s awaited Hall Hsettled];
    split; simpl; try done.
  - rewrite Hstarted. symmetry. by apply take_S_r.
  - by apply lookup_lt_Some in Ht.
  - rewrite dom_insert_L. set_solver.
  - intros i. unfold running'. rewrite elem_of_union, elem_of_singleton.
    intros [->|Hi]; [lia|]. apply Hrunning in Hi. lia.
  - rewrite Hloop in Hpc.
    assert (Hsize : size running' = S (size (running s))).
    { unfold running'. rewrite size_union, size_singleton; [done|].
      apply disjoint_singleton_l. intros Hin%Hrunning. lia. }
    case_decide as Hfull; [|lia].
    split; [done|]. split; [lia|].
    unfold running'. set_solver.
  - rewrite Hloop in Hpc. split; [done|]. split; [lia|].
    apply lookup_ge_None in Ht. lia.
  - rewrite dom_insert_L. apply elem_of_dom_2 in Hi. set_solver.
  - destruct (pc s); try done. destruct Hpc as [Hempty _].
    rewrite Hempty in Hi. done.
  - rewrite dom_delete_L. set_solver.
  - destruct (pc s); try done. destruct Hpc as [Hempty _].
    rewrite Hempty in Hi. done.
  - apply not_elem_of_dom in Hnone. set_solver.
  - intros j Hj. apply Hrunning. set_solver.
  - assert (Hsub : running s ∖ {[i]} ⊆ running s) by set_solver.
    pose proof (subseteq_size _ _ Hsub).
    destruct (pc s); try done.
    + lia.
    + destruct Hpc as (? & ? & ?). split; [set_solver | done].
    + destruct Hpc as (? & ? & ?). split; [set_solver | done].
  - rewrite Hrace in Hpc. destruct Hpc as (Hsub & Hsize & _).
    assert (Hsub' : running s ⊆ raced ∖ {[i]}) by set_solver.
    apply subseteq_size in Hsub'.
    rewrite size_difference, size_singleton in Hsub' by set_solver.
    assert (size raced <> 0).
    { intros Hz%size_empty_iff. set_solver. }
    lia.
  - rewrite Hall in Hpc. destruct Hpc as (Hsub & _ & Hlen).
    split; [|done]. apply map_empty. intros i.
    destruct (pending s !! i) eqn:Hi; [|done].
    assert (Hin : i ∈ awaited).
    { apply Hsub, Hpending. by apply elem_of_dom_2 in Hi. }
    rewrite (Hsettled i Hin) in Hi. done.
Qed.

Lemma invariant_reachable w s : rtc step (init w) s -> invariant s.
Proof.
  clear resume_cost.
  intros Hrun.
  refine (rtc_ind_r (R:=step) (fun s => invariant s) (init w) _ _ s Hrun).
  - apply invariant_init.
  - intros y z _ Hstep Hy. by apply (invariant_step y).
Qed.

Lemma pendingCost_delete (m : gmap nat Cont) i k :
  m !! i = Some k ->
  pendingCost cost m = S (cost k) + pendingCost cost (delete i m).
Proof.
  clear resume_cost limit_pos.
  intros Hi. unfold pendingCost.
  apply (map_fold_delete_L (fun _ k acc => S (cost k) + acc)); [|done].
  intros. lia.
Qed.

Lemma pendingCost_insert_fresh (m : gmap nat Cont) i k :
  m !! i = None ->
  pendingCost cost (<[i:=k]> m) = S (cost k) + pendingCost cost m.
Proof.
  clear resume_cost limit_pos.
  intros Hi. unfold pendingCost.
  apply (map_fold_insert_L (fun _ k acc => S (cost k) + acc)); [|done].
  intros. lia.
Qed.

Lemma pendingCost_insert (m : gmap nat Cont) i k :
  pendingCost cost (<[i:=k]> m) = S (cost k) + pendingCost cost (delete i m).
Proof.
  clear resume_cost limit_pos.
  rewrite <- insert_delete_eq. apply pendingCost_insert_fresh, lookup_delete_eq.
Qed.

Lemma pendingCost_insert_le (m : gmap nat Cont) i k :
  pendingCost cost (<[i:=k]> m) <= S (cost k) + pendingCost cost m.
Proof.
  clear resume_cost limit_pos.
  rewrite pendingCost_insert. destruct (m !! i) as [k0|] eqn:Hi.
  - rewrite (pendingCost_delete m i k0) by done. lia.
  - by rewrite delete_id.
Qed.

(** Every step lowers the measure: no run is infinite. *)
Lemma schedMeasure_step s s' : step s s' -> measure s' < measure s.
Proof.
  clear limit_pos.
  intros Hstep. unfold schedMeasure.
  destruct Hstep as [s t Hloop Ht running'|s Hloop Ht|s i k k' w' Hi Hres
                    |s i k w' Hi Hres|s i Hi Hnone|s raced i Hrace Hi Hni
                    |s awaited Hall Hsettled]; simpl.
  - rewrite Hloop, (drop_S _ _ _ Ht). simpl.
    pose proof (pendingCost_insert_le (pending s) (next s) (start t)).
    assert (size running' <= S (size (running s))).
    { unfold running'. rewrite size_union_alt, size_singleton.
      assert (Hsub : running s ∖ {[next s]} ⊆ running s) by set_solver.
      apply subseteq_size in Hsub. lia. }
    assert (controlWeight (if decide (limit <= size running')
                           then AwaitRace running' else Loop) <= 3)
      by (case_decide; simpl; lia).
    lia.
  - rewrite Hloop. simpl. lia.
  - rewrite pendingCost_insert, (pendingCost_delete (pending s) i k) by done.
    apply resume_cost in Hres. lia.
  - rewrite (pendingCost_delete (pending s) i k) by done. lia.
  - rewrite size_difference, size_singleton by set_solver.
    assert (size (running s) <> 0).
    { intros Hz%size_empty_iff. set_solver. }
    lia.
  - rewrite Hrace. simpl. lia.
  - rewrite Hall. simpl. lia.
Qed.

(** A state that has not returned can take a step: no run is stuck. *)
Lemma step_progress s : invariant s -> pc s <> Done -> exists s', step s s'.
Proof.
  clear resume_cost limit_pos.
  intros [Hstarted Hnext Hpending Hrunning Hpc] Hpcs.
  assert (Hresume : forall i k, pending s !! i = Some k -> exists s', step s s').
  { intros i k Hi. destruct (resume k (world s)) as [[k'|] w'] eqn:Hres.
    - eexists. by eapply step_task.
    - eexists. by eapply step_settle. }
  destruct (pc s) as [|raced|awaited|] eqn:Hc; [| | |done].
  - destruct (tasks !! next s) as [t|] eqn:Ht.
    + eexists. by eapply step_start.
    + eexists. by eapply step_exit.
  - destruct Hpc as (Hsub & Hsize & Hne).
    destruct (decide (raced ∖ running s = ∅)) as [Hall|Hsome].
    + apply set_choose_L in Hne as [i Hi].
      assert (Hin : i ∈ running s) by set_solver.
      destruct (pending s !! i) as [k|] eqn:Hk; [by eapply Hresume|].
      eexists. by eapply step_finally.
    + apply set_choose_L in Hsome as [i Hi].
      eexists. eapply (step_race _ _ _ _ s raced i); set_solver.
  - destruct (decide (pending s = ∅)) as [Hempty|Hsome].
    + eexists. eapply step_all; [done|]. intros i _. by rewrite Hempty.
    + apply map_choose in Hsome as (i & k & Hi). by eapply Hresume.
Qed.

(** From every state of a run the call returns. *)
Lemma run_terminates s :
  invariant s -> exists s', rtc step s s' /\ pc s' = Done.
Proof.
  remember (measure s) as n eqn:Hn. revert s Hn.
  induction n as [n IH] using lt_wf_ind. intros s -> Hinv.
  assert (Hdec : pc s = Done \/ pc s <> Done)
    by (destruct (pc s); auto; right; discriminate).
  destruct Hdec as [Hdone|Hrun].
  - exists s. by split.
  - destruct (step_progress s Hinv Hrun) as [s1 Hstep].
    destruct (IH (measure s1) (schedMeasure_step _ _ Hstep) s1 eq_refl)
      as (s' & Hrtc & Hdone); [by eapply invariant_step|].
    exists s'. split; [by eapply rtc_l | done].
Qed.

Lemma inFlight_bound s : invariant s -> size (inFlight s) <= limit.
Proof.
  clear resume_cost limit_pos.
  intros [_ _ Hpending _ Hpc]. unfold inFlight.
  apply subseteq_size in Hpending.
  destruct (pc s).
  - lia.
  - destruct Hpc as (Hsub%subseteq_size & ? & _). lia.
  - destruct Hpc as (Hsub%subseteq_size & ? & _). lia.
  - destruct Hpc as [Hempty _]. rewrite Hempty, dom_empty_L, size_empty. lia.
Qed.

Lemma done_all_settled s :
  invariant s -> pc s = Done -> started s = tasks /\ inFlight s = ∅.
Proof.
  clear resume_cost limit_pos.
  intros [Hstarted _ _ _ Hpc] Hdone. rewrite Hdone in Hpc.
  destruct Hpc as [Hempty Hlen]. split.
  - rewrite Hstarted, Hlen. apply take_ge. lia.
  - unfold inFlight. by rewrite Hempty, dom_empty_L.
Qed.

End SchedulerFacts.

(** C1. With [1 <= limit] and tasks whose promises settle, in every state
    of a call of [runWithConcurrency] the tasks called so far are the first
    tasks of the sequence, each called once and in order, and at most
    [limit] promises are in flight; in a state where the call has returned
    every task has been called and no promise is in flight; and the call
    does return: from every state a returned state can be reached, every
    step lowers a measure, so no run goes on for ever, and a complete call
    exists. *)
Theorem runWithConcurrency_schedule {Task Cont W : Type} (start : Task -> Cont)
    (resume : Cont -> W -> option Cont * W) (cost : Cont -> nat)
    (tasks : list Task) (limit : nat) (w : W) (s : sched) :
  (forall k w k' w', resume k w = (Some k', w') -> cost k' < cost k) ->
  1 <= limit ->
  rtc (step start resume tasks limit) (init w) s ->
  started s = take (next s) tasks
  /\ size (inFlight s) <= limit
  /\ (pc s = Done -> started s = tasks /\ inFlight s = ∅)
  /\ (exists s', rtc (step start resume tasks limit) s s' /\ pc s' = Done)
  /\ (forall s', step start resume tasks limit s s' ->
        schedMeasure start cost tasks s' < schedMeasure start cost tasks s)
  /\ (exists w', runWithConcurrency start resume tasks limit w w').
Proof.
  intros Hcost Hlimit Hrun.
  assert (Hinv : invariant tasks limit s) by by eapply invariant_reachable.
  split; [apply Hinv|].
  split; [by apply (inFlight_bound tasks)|].
  split; [by apply (done_all_settled tasks limit)|].
  split; [by eapply run_terminates|].
  split; [intros s' Hstep; by eapply schedMeasure_step|].
  destruct (run_terminates start resume cost tasks limit Hcost (init w))
    as (s' & Hrun' & Hdone); [by apply invariant_init|].
  exists (world s'), s'. done.
Qed.

Lemma runWithConcurrency_schedule_witness :
  exists s : @sched nat nat nat,
    rtc (step id countdown [1; 0; 2] 2) (init 0) s
    /\ next s = 1
    /\ started s = [1]
    /\ size (inFlight s) <= 2.
Proof.
  assert (Hstep : step id countdown [1; 0; 2] 2 (init 0)
            {| pc := if decide (2 <= size ({[0]} ∪ (∅ : gset nat)))
                     then AwaitRace ({[0]} ∪ ∅) else Loop;
               next := 1; running := {[0]} ∪ ∅;
               pending := <[0 := id 1]> ∅; started := [] ++ [1]; world := 0 |}).
  { by apply (step_start id countdown [1; 0; 2] 2 (init 0) 1). }
  assert (Hcost : forall k w k' w' : nat,
            countdown k w = (Some k', w') -> id k' < id k).
  { intros [|k] w k' w' H; simpl in H; [discriminate H|].
    injection H as <- _. unfold id. lia. }
  eexists. split; [apply rtc_once, Hstep|].
  destruct (runWithConcurrency_schedule id countdown id [1; 0; 2] 2 0 _
              Hcost (le_S 1 1 (le_n 1)) (rtc_once _ _ Hstep))
    as (Hstarted & Hbound & _).
  split; [done|]. split; [exact Hstarted | exact Hbound].
Defined.

(** ** Segment tasks *)

Lemma place_lookup folder dir index file w :
  fs w !! folder = Some dir ->
  fs (place folder dir index file w) !! folder
  = Some (match file with
          | Some content => <[filename index := content]> dir
          | None => dir
          end).
Proof.
  intros Hdir. destruct file; cbn [place fs set_fs]; [|done].
  apply lookup_insert_eq.
Qed.

Lemma place_again folder dir index file content w :
  fs w !! folder = Some dir ->
  set_fs (<[folder := <[filename index := content]>
                        (match file with
                         | Some old => <[filename index := old]> dir
                         | None => dir
                         end)]> (fs (place folder dir index file w)))
    (place folder dir index file w)
  = place folder dir index (Some content) w.
Proof.
  intros Hdir. destruct file; cbn [place fs set_fs outputs progress console];
    unfold set_fs; cbn [fs outputs progress console]; [|done].
  by rewrite !insert_insert_eq.
Qed.

(** One attempt, in a workspace that exists. *)
Lemma downloadAttempt_step env folder t dir w file attempt :
  fs w !! folder = Some dir ->
  downloadAttempt env folder t (attempt, place folder dir (seg_index t) file w)
  = match attemptOf (fetch env (ReqSegment (seg_index t) attempt) (seg_url t))
            (write env (seg_index t) attempt) with
    | Stored body =>
        (Ok tt,
         (S attempt, increment (place folder dir (seg_index t) (Some body) w)))
    | Failed e partial =>
        (Throw e,
         (S attempt,
          place folder dir (seg_index t)
            (match partial with Some part => Some part | None => file end) w))
    end.
Proof.
  intros Hdir. unfold downloadAttempt, downloadTs, writeFile, attemptOf.
  destruct (fetch env _ _) as [e|status body]; [done|].
  destruct (ok status); cbn [negb]; [|done].
  rewrite (place_lookup folder dir (seg_index t) file w Hdir).
  destruct (write env _ _) as [|e [n|]]; cbn [fmap option_fmap option_map];
    [| |done]; by rewrite place_again.
Qed.

(** A task leaves the file of its segment in the workspace and either
    advances the progress bar, when an attempt succeeds, or prints the
    failure of the fourth attempt; it never rejects. *)
Lemma segmentTask_spec env folder t w dir :
  fs w !! folder = Some dir ->
  segmentTask env folder t w
  = (Ok tt,
     match segmentBody env t with
     | Some _ => increment (place folder dir (seg_index t) (segmentFile env t) w)
     | None =>
         console_log (failureLine env t)
           (place folder dir (seg_index t) (segmentFile env t) w)
     end).
Proof.
  intros Hdir.
  unfold segmentTask, retry_default, retry, segmentBody, segmentFile, failureLine,
    attemptsOf.
  cbn [retry_loop map firstBody fileLeft Nat.eqb].
  change (0, w) with (0, place folder dir (seg_index t) None w).
  rewrite (downloadAttempt_step env folder t dir w None 0 Hdir).
  destruct (attemptOf (fetch env (ReqSegment (seg_index t) 0) (seg_url t)) _)
    as [b0|e0 p0]; cbn [firstBody fileLeft Nat.eqb]; [done|].
  rewrite (downloadAttempt_step env folder t dir w _ 1 Hdir).
  destruct (attemptOf (fetch env (ReqSegment (seg_index t) 1) (seg_url t)) _)
    as [b1|e1 p1]; cbn [firstBody fileLeft Nat.eqb]; [done|].
  rewrite (downloadAttempt_step env folder t dir w _ 2 Hdir).
  destruct (attemptOf (fetch env (ReqSegment (seg_index t) 2) (seg_url t)) _)
    as [b2|e2 p2]; cbn [firstBody fileLeft Nat.eqb]; [done|].
  rewrite (downloadAttempt_step env folder t dir w _ 3 Hdir).
  destruct (attemptOf (fetch env (ReqSegment (seg_index t) 3) (seg_url t)) _)
    as [b3|e3 p3]; cbn [firstBody fileLeft Nat.eqb message]; done.
Qed.

(** A segment that is fetched leaves its body; without a write that fails
    part-way, a segment leaves a file only when it is fetched; and a
    segment whose four requests fail leaves none. *)
Lemma fileLeft_firstBody attempts file body :
  firstBody attempts = Some body -> fileLeft attempts file = Some body.
Proof.
  revert file. induction attempts as [|[b|e p] rest IH]; intros file; simpl;
    [done | by intros [= ->] | apply IH].
Qed.

Lemma segmentFile_fetched env t body :
  segmentBody env t = Some body -> segmentFile env t = Some body.
Proof. apply fileLeft_firstBody. Qed.

Lemma attemptOf_fetchError res wr e :
  fetchError res = Some e -> attemptOf res wr = Failed e None.
Proof.
  unfold fetchError, attemptOf. destruct res as [e'|status body].
  - by intros [= ->].
  - destruct (ok status); [done | by intros [= <-]].
Qed.

Lemma attemptOf_whole res wr :
  (forall e n, wr <> WriteError e (Some n)) ->
  match attemptOf res wr with
  | Stored _ => True
  | Failed _ partial => partial = None
  end.
Proof.
  intros Hwr. unfold attemptOf. destruct res as [e|status body]; [done|].
  destruct (ok status); [|done].
  destruct wr as [|e [n|]]; [done| |done]. by destruct (Hwr e n).
Qed.

Lemma segmentFile_whole env t :
  (forall attempt e n, write env (seg_index t) attempt <> WriteError e (Some n)) ->
  segmentFile env t = segmentBody env t.
Proof.
  intros Hwr. unfold segmentFile, segmentBody, attemptsOf. cbn [map].
  pose proof (fun a => attemptOf_whole
                (fetch env (ReqSegment (seg_index t) a) (seg_url t))
                (write env (seg_index t) a) (Hwr a)) as Hwhole.
  pose proof (Hwhole 0) as H0. pose proof (Hwhole 1) as H1.
  pose proof (Hwhole 2) as H2. pose proof (Hwhole 3) as H3.
  destruct (attemptOf _ (write env (seg_index t) 0)) as [|? ?]; [done|].
  destruct (attemptOf _ (write env (seg_index t) 1)) as [|? ?];
    cbn [firstBody fileLeft]; subst; [done|].
  destruct (attemptOf _ (write env (seg_index t) 2)) as [|? ?];
    cbn [firstBody fileLeft]; subst; [done|].
  destruct (attemptOf _ (write env (seg_index t) 3)) as [|? ?];
    cbn [firstBody fileLeft]; subst; done.
Qed.

Lemma segment_requests_fail env t :
  (forall attempt, attempt < 4 ->
     fetchError (fetch env (ReqSegment (seg_index t) attempt) (seg_url t)) <> None) ->
  segmentBody env t = None /\ segmentFile env t = None.
Proof.
  intros Hfail.
  assert (Hall : forall attempt, attempt < 4 -> exists e,
            attemptOf (fetch env (ReqSegment (seg_index t) attempt) (seg_url t))
              (write env (seg_index t) attempt) = Failed e None).
  { intros a Ha. specialize (Hfail a Ha).
    destruct (fetchError _) as [e|] eqn:He; [|done].
    exists e. by apply attemptOf_fetchError. }
  unfold segmentBody, segmentFile, attemptsOf. cbn [map].
  destruct (Hall 0 ltac:(lia)) as [e0 ->], (Hall 1 ltac:(lia)) as [e1 ->],
    (Hall 2 ltac:(lia)) as [e2 ->], (Hall 3 ltac:(lia)) as [e3 ->].
  done.
Qed.

Lemma stored_whole env ts :
  (forall index attempt e n, write env index attempt <> WriteError e (Some n)) ->
  stored env ts = fetched env ts.
Proof.
  intros Hwhole. unfold stored, fetched.
  induction ts as [|t ts IH]; [done|]. cbn [omap list_omap].
  by rewrite IH, (segmentFile_whole env t (Hwhole (seg_index t))).
Qed.

Lemma segmentTask_fulfilled env folder t w : (segmentTask env folder t w).1 = Ok tt.
Proof.
  unfold segmentTask.
  by destruct (retry_default _ _ _) as [[?|?] [? ?]].
Qed.

(** ** Runs of atomic tasks

    When every task is one resumption, a property of the set of settled
    promises and of the world that holds at the start and is kept by the
    settling of any promise not yet settled holds in every state of a run,
    whatever the order in which the promises settle. *)

Section AtomicTasks.
Context {Task W : Type}.
Variable run : Task -> W -> W.
Variable tasks : list Task.
Variable limit : nat.

Local Abbreviation astep :=
  (step (fun t : Task => t) (fun t w => (None, run t w)) tasks limit).

Lemma settledSet_start (s : @sched Task Task W) t :
  set_seq 0 (S (next s)) ∖ dom (<[next s := t]> (pending s)) = settledSet s.
Proof.
  unfold settledSet. apply set_eq. intros x.
  rewrite !elem_of_difference, !elem_of_set_seq, dom_insert_L,
    elem_of_union, elem_of_singleton.
  naive_solver lia.
Qed.

Lemma settledSet_settle (s : @sched Task Task W) i :
  i < next s -> i ∈ dom (pending s) ->
  set_seq 0 (next s) ∖ dom (delete i (pending s)) = {[i]} ∪ settledSet s.
Proof.
  intros Hlt Hin. unfold settledSet. apply set_eq. intros x.
  rewrite elem_of_union, elem_of_singleton, !elem_of_difference,
    !elem_of_set_seq, dom_delete_L, elem_of_difference, elem_of_singleton.
  destruct (decide (x = i)) as [->|Hne]; [|naive_solver lia].
  split; [by left|]. intros _. split; [lia|]. by intros [_ ?].
Qed.

Lemma settled_invariant (P : gset nat -> W -> Prop) (w0 : W) s :
  P ∅ w0 ->
  (forall S i t w, i ∉ S -> tasks !! i = Some t -> P S w ->
     P ({[i]} ∪ S) (run t w)) ->
  rtc astep (init w0) s ->
  P (settledSet s) (world s)
  /\ (forall i k, pending s !! i = Some k -> tasks !! i = Some k /\ i < next s).
Proof.
  intros Hinit Hkeep Hrun.
  refine (rtc_ind_r (R:=astep)
            (fun s => P (settledSet s) (world s)
                      /\ forall i k, pending s !! i = Some k ->
                                     tasks !! i = Some k /\ i < next s)
            (init w0) _ _ s Hrun).
  - split; [|done].
    replace (settledSet (init w0)) with (∅ : gset nat); [done|].
    unfold settledSet. simpl. set_solver.
  - clear s Hrun. intros s s' _ Hstep [HP Hpend].
    destruct Hstep as [s t Hloop Ht running'|s Hloop Ht|s i k k' w' Hi Hres
                      |s i k w' Hi Hres|s i Hi Hnone|s raced i Hrace Hi Hni
                      |s awaited Hall Hsettled]; try done.
    + unfold settledSet at 1. cbn [next pending world]. rewrite settledSet_start.
      split; [done|]. intros i k. rewrite lookup_insert.
      case_decide as Hi; [intros [= <-]; subst i; split; [done | lia]|].
      intros Hk. destruct (Hpend i k Hk). split; [done | lia].
    + destruct (Hpend i k Hi) as [Hti Hlt]. injection Hres as <-.
      unfold settledSet at 1. cbn [next pending world].
      rewrite settledSet_settle by (done || by apply elem_of_dom_2 in Hi).
      split.
      * apply Hkeep; [|done..]. unfold settledSet.
        apply elem_of_dom_2 in Hi. set_solver.
      * intros j k'. rewrite lookup_delete. case_decide; [done|]. apply Hpend.
Qed.

(** In a returned state every promise has settled. *)
Lemma settledSet_done (s : @sched Task Task W) :
  invariant tasks limit s -> pc s = Done ->
  settledSet s = set_seq 0 (length tasks).
Proof.
  intros [_ _ _ _ Hpc] Hdone. rewrite Hdone in Hpc. destruct Hpc as [Hempty Hlen].
  unfold settledSet. rewrite Hempty, Hlen, dom_empty_L. set_solver.
Qed.

End AtomicTasks.

(** ** Runs of the driver *)

Section Runs.
Variable env : Env.
Variable tsUrls : list string.
Variable maxConcurrency : nat.

Local Abbreviation folder := (tempFolderOf env).
Local Abbreviation rstep := (segStep env tsUrls maxConcurrency).

(** The scheduler returns. *)
Lemma segStep_terminates w0 s :
  1 <= maxConcurrency ->
  rtc rstep (init w0) s ->
  exists s', rtc rstep s s' /\ pc s' = Done.
Proof.
  intros Hlimit Hrun. unfold segStep in *.
  apply (run_terminates _ _ (fun _ => 0)).
  - intros k w k' w' [=].
  - by eapply invariant_reachable.
Qed.

(** The workspace exists in every state of a run. *)
Lemma workspace_exists w s :
  rtc rstep (init (prepare env w)) s -> is_Some (fs (world s) !! folder).
Proof.
  intros Hrun. unfold segStep in Hrun.
  refine (proj1 (settled_invariant
                   (fun t w => (segmentTask env folder t w).2) (tasksOf tsUrls)
                   maxConcurrency (fun _ w => is_Some (fs w !! folder))
                   (prepare env w) s _ _ Hrun)).
  - unfold prepare, mkdir_p. simpl.
    destruct (fs w !! folder) eqn:Hf; simpl; [by rewrite Hf|].
    by rewrite lookup_insert_eq.
  - intros _ i t w1 _ _ [dir Hdir].
    rewrite (segmentTask_spec env folder t w1 dir Hdir). cbn [snd].
    destruct (segmentBody env t); cbn [fs increment console_log];
      by rewrite (place_lookup _ _ _ _ _ Hdir).
Qed.

End Runs.

(** After the scheduler, with the workspace in place: the assembler does
    not fail and the outcome is the one of the removal. *)
Lemma finish_outcome env outputPath w dir :
  fs w !! tempFolderOf env = Some dir ->
  exists w2,
    (mergeTsFiles env (tempFolderOf env) outputPath
       (console_log "Merge TS files......" w)).1 = Ok tt
    /\ w2 = console_log ("Video is saved as: " +:+ outputPath)
              (mergeTsFiles env (tempFolderOf env) outputPath
                 (console_log "Merge TS files......" w)).2
    /\ fs w2 !! tempFolderOf env = Some dir
    /\ finish env outputPath w
       = match rmError env (tempFolderOf env) with
         | Some e =>
             (Throw e,
              set_fs (<[tempFolderOf env :=
                         filter (fun entry =>
                                   rmLeft env (tempFolderOf env) entry.1 = true)
                           dir]> (fs w2)) w2)
         | None => (Ok tt, set_fs (delete (tempFolderOf env) (fs w2)) w2)
         end.
Proof.
  intros Hdir. unfold finish.
  rewrite (mergeTsFiles_ok env _ outputPath _ dir) by done.
  destruct (sort _) as [|f names]; cbn [fst snd]; eexists.
  - split; [done|]. split; [reflexivity|]. split; [exact Hdir|].
    unfold cleanup. cbn [fs console_log]. by rewrite Hdir.
  - split; [done|]. split; [reflexivity|].
    assert (Hdir' : fs (mkdir_p (dirname env outputPath)
                          (console_log "Merge TS files......" w))
                    !! tempFolderOf env = Some dir) by by apply mkdir_p_lookup.
    split; [exact Hdir'|]. unfold cleanup. cbn [fs console_log set_outputs].
    by rewrite Hdir'.
Qed.

(** The outcome of every complete run whose manifest resolves. *)
Lemma downloadM3u8_outcome env m3u8Url maxConcurrency outputPath w tsUrls res w' :
  resolveManifest env m3u8Url = Ok tsUrls ->
  downloadM3u8 env m3u8Url maxConcurrency outputPath w (res, w') ->
  match rmError env (tempFolderOf env) with
  | Some e => res = Throw e
  | None => res = Ok tt /\ fs w' !! tempFolderOf env = None
  end.
Proof.
  intros Hresolve Hrun.
  inversion Hrun as [e He|tsUrls' w1 Hres (s & Hsteps & Hdone & <-) Hfin];
    [congruence|].
  rewrite Hresolve in Hres. injection Hres as <-.
  destruct (workspace_exists env tsUrls maxConcurrency w s Hsteps) as [dir Hdir].
  destruct (finish_outcome env outputPath (world s) dir Hdir)
    as (w2 & _ & _ & _ & Hfinish).
  rewrite Hfinish in Hfin.
  destruct (rmError env (tempFolderOf env)); injection Hfin as <- <-; [done|].
  split; [done|]. simpl. apply lookup_delete_eq.
Qed.

(** A complete run exists. *)
Lemma downloadM3u8_total env m3u8Url maxConcurrency outputPath w :
  1 <= maxConcurrency ->
  exists r, downloadM3u8 env m3u8Url maxConcurrency outputPath w r.
Proof.
  intros Hlimit. destruct (resolveManifest env m3u8Url) as [tsUrls|e] eqn:Hres.
  - destruct (segStep_terminates env tsUrls maxConcurrency (prepare env w)
                (init (prepare env w)) Hlimit (rtc_refl _ _)) as (s & Hrun & Hdone).
    eexists. eapply run_resolved; [done|]. by exists s.
  - eexists. by eapply run_unresolved.
Qed.

(** C8 (counterexample). When the removal of the workspace fails, every
    complete run of [downloadM3u8] throws the error of the removal, and
    there is such a run: the failure reaches the caller. *)
Lemma cleanup_failure_counterexample :
  (exists r, downloadM3u8 lockedEnv "http://h/a/index.m3u8" 10
               "downloads/out.ts" emptyWorld r)
  /\ (forall res w',
        downloadM3u8 lockedEnv "http://h/a/index.m3u8" 10 "downloads/out.ts"
          emptyWorld (res, w') ->
        res = Throw (MkError
                       "EPERM: operation not permitted, rmdir ts_temp/1700000000000")).
Proof.
  split; [apply downloadM3u8_total; lia|].
  intros res w' Hrun.
  assert (Hresolve : exists tsUrls,
             resolveManifest lockedEnv "http://h/a/index.m3u8" = Ok tsUrls)
    by (eexists; reflexivity).
  destruct Hresolve as [tsUrls Hresolve].
  apply (downloadM3u8_outcome _ _ _ _ _ _ _ _ Hresolve Hrun).
Qed.

(** C8 (amended). [cleanup] removes a directory recursively and forcibly:
    a missing directory is not an error and nothing changes; a directory
    that is there is removed, or else the error of the removal is thrown by
    [cleanup].  After assembly, on every complete run whose manifest
    resolves: when the removal does not fail the run returns normally and
    the workspace is gone; when it fails, the error of the removal is
    thrown by [downloadM3u8], which has no handler around [cleanup]. *)
Theorem cleanup_after_assembly env m3u8Url maxConcurrency outputPath w tsUrls res w' :
  (forall folder w0,
      fs w0 !! folder = None -> cleanup env folder w0 = (Ok tt, w0))
  /\ (forall folder w0,
        is_Some (fs w0 !! folder) ->
        match rmError env folder with
        | None =>
            cleanup env folder w0 = (Ok tt, set_fs (delete folder (fs w0)) w0)
            /\ fs (cleanup env folder w0).2 !! folder = None
        | Some e => (cleanup env folder w0).1 = Throw e
        end)
  /\ (resolveManifest env m3u8Url = Ok tsUrls ->
      downloadM3u8 env m3u8Url maxConcurrency outputPath w (res, w') ->
      (rmError env (tempFolderOf env) = None ->
       res = Ok tt /\ fs w' !! tempFolderOf env = None)
      /\ (forall e, rmError env (tempFolderOf env) = Some e -> res = Throw e)).
Proof.
  split; [|split].
  - intros folder w0 Hnone. unfold cleanup. by rewrite Hnone.
  - intros folder w0 [dir Hdir]. unfold cleanup. rewrite Hdir.
    destruct (rmError env folder); [done|]. split; [done|].
    cbn [snd fs set_fs]. apply lookup_delete_eq.
  - intros Hresolve Hrun.
    pose proof (downloadM3u8_outcome _ _ _ _ _ _ _ _ Hresolve Hrun) as Hout.
    split.
    + intros Hrm. by rewrite Hrm in Hout.
    + intros e Hrm. by rewrite Hrm in Hout.
Qed.

(** ** The workspace of a run *)

Lemma tasksOf_lookup tsUrls i t :
  tasksOf tsUrls !! i = Some t ->
  seg_index t = N.of_nat i /\ i < length tsUrls.
Proof.
  unfold tasksOf. rewrite list_lookup_imap.
  destruct (tsUrls !! i) as [u|] eqn:Hu; [|done].
  intros [= <-]. split; [done|]. by apply lookup_lt_Some in Hu.
Qed.

Lemma sortsBefore_irrefl a : ~ sortsBefore a a.
Proof. rewrite sortsBefore_strict. by intros [? ?]. Qed.

Lemma filename_inj i j :
  (i < 100000)%N -> (j < 100000)%N -> filename i = filename j -> i = j.
Proof.
  intros Hi Hj Heq.
  destruct (N.lt_trichotomy i j) as [Hlt|[->|Hgt]]; [|done|].
  - pose proof (filename_lt i j Hlt Hj) as Hs. rewrite Heq in Hs.
    by apply sortsBefore_irrefl in Hs.
  - pose proof (filename_lt j i Hgt Hi) as Hs. rewrite Heq in Hs.
    by apply sortsBefore_irrefl in Hs.
Qed.

Section Workspace.
Variable env : Env.
Variable tsUrls : list string.
Variable maxConcurrency : nat.
Variable w0 : World.

Hypothesis few_segments : (N.of_nat (length tsUrls) <= 100000)%N.
Hypothesis fresh_folder : fs w0 !! tempFolderOf env = None.

Local Abbreviation folder := (tempFolderOf env).
Local Abbreviation ts := (tasksOf tsUrls).

Lemma runInvariant_init : runInvariant env w0 ts ∅ (prepare env w0).
Proof.
  clear few_segments.
  unfold prepare, mkdir_p. rewrite fresh_folder. split; [|split].
  - exists ∅. split; [done|]. intros name body. rewrite lookup_empty.
    split; [done|]. intros (i & t & Hi & _). set_solver.
  - done.
  - intros i t Hi. set_solver.
Qed.

Lemma runInvariant_keep settled i t w :
  i ∉ settled -> ts !! i = Some t ->
  runInvariant env w0 ts settled w ->
  runInvariant env w0 ts ({[i]} ∪ settled) (segmentTask env folder t w).2.
Proof.
  clear fresh_folder.
  intros Hi Ht ((dir & Hfs & Hws) & Hout & Hlog).
  assert (Hdir : fs w !! folder = Some dir) by by rewrite Hfs, lookup_insert_eq.
  rewrite (segmentTask_spec env folder t w dir Hdir). cbn [snd].
  set (w1 := place folder dir (seg_index t) (segmentFile env t) w).
  assert (Hw1 : (exists dir1, fs w1 = <[folder := dir1]> (fs w0)
                   /\ workspaceOf env ts ({[i]} ∪ settled) dir1)
                /\ outputs w1 = outputs w /\ console w1 = console w).
  { unfold w1, place. destruct (segmentFile env t) as [file|] eqn:Hfile.
    - split; [|done]. exists (<[filename (seg_index t) := file]> dir). split.
      { cbn [fs set_fs]. by rewrite Hfs, insert_insert_eq. }
      intros name body'. rewrite lookup_insert.
      destruct (decide (filename (seg_index t) = name)) as [<-|Hne].
      + split.
        * intros [= <-]. exists i, t. set_solver.
        * intros (j & t' & Hj & Ht' & Hname & Hbody').
          destruct (tasksOf_lookup _ _ _ Ht) as [Hidx Hlt].
          destruct (tasksOf_lookup _ _ _ Ht') as [Hidx' Hlt'].
          apply filename_inj in Hname; [|lia..].
          assert (j = i) as -> by lia.
          rewrite Ht in Ht'. injection Ht' as <-. congruence.
      + rewrite (Hws name body'). split.
        * intros (j & t' & Hj & Hrest). exists j, t'. set_solver.
        * intros (j & t' & Hj & Ht' & Hname & Hbody').
          apply elem_of_union in Hj as [->%elem_of_singleton|Hj].
          -- rewrite Ht in Ht'. injection Ht' as <-. congruence.
          -- by exists j, t'.
    - split; [|done]. exists dir. split; [done|].
      intros name body'. rewrite (Hws name body'). split.
      + intros (j & t' & Hj & Hrest). exists j, t'. set_solver.
      + intros (j & t' & Hj & Ht' & Hname & Hbody').
        apply elem_of_union in Hj as [->%elem_of_singleton|Hj].
        * rewrite Ht in Ht'. injection Ht' as <-. congruence.
        * by exists j, t'. }
  destruct Hw1 as (Hws1 & Hout1 & Hcon1).
  destruct (segmentBody env t) as [body|] eqn:Hbody; (split; [|split]).
  - exact Hws1.
  - cbn [outputs increment]. congruence.
  - intros j t' Hj Ht' Hnone. cbn [console increment]. rewrite Hcon1.
    apply elem_of_union in Hj as [->%elem_of_singleton|Hj].
    + rewrite Ht in Ht'. injection Ht' as <-. congruence.
    + by apply (Hlog j t').
  - exact Hws1.
  - cbn [outputs console_log]. congruence.
  - intros j t' Hj Ht' Hnone. cbn [console console_log]. rewrite Hcon1.
    apply elem_of_app.
    apply elem_of_union in Hj as [->%elem_of_singleton|Hj].
    + rewrite Ht in Ht'. injection Ht' as <-. right. set_solver.
    + left. by apply (Hlog j t').
Qed.

(** When the scheduler has returned, the workspace holds exactly the files
    the segments left, whatever the order in which the tasks ended. *)
Lemma run_workspace s :
  1 <= maxConcurrency ->
  rtc (segStep env tsUrls maxConcurrency) (init (prepare env w0)) s ->
  pc s = Done ->
  runInvariant env w0 ts (set_seq 0 (length ts)) (world s).
Proof.
  intros Hlimit Hrun Hdone. unfold segStep in Hrun.
  rewrite <- (settledSet_done ts maxConcurrency s);
    [|by eapply invariant_reachable | done].
  refine (proj1 (settled_invariant
                   (fun t w => (segmentTask env folder t w).2) ts maxConcurrency
                   (runInvariant env w0 ts) (prepare env w0) s _ _ Hrun)).
  - apply runInvariant_init.
  - intros settled i t w. apply runInvariant_keep.
Qed.

End Workspace.

(** ** The listing of the workspace after a run *)

Lemma endsWith_append p s : Js.endsWith p (s +:+ p) = true.
Proof.
  induction s as [|c s IH].
  - change ("" +:+ p) with p. destruct p; simpl; [done|].
    by rewrite Ascii.eqb_refl, String.eqb_refl.
  - rewrite append_String. simpl. rewrite IH. apply orb_true_r.
Qed.

Lemma endsWith_filename i : Js.endsWith ".ts" (filename i) = true.
Proof. apply endsWith_append. Qed.

Lemma StronglySorted_NoDup {A} (R : relation A) (l : list A) :
  (forall x, ~ R x x) -> StronglySorted R l -> NoDup l.
Proof.
  intros Hirr. induction 1 as [|x l Hsorted IH Hall]; constructor; [|done].
  intros Hin. apply (Hirr x). by apply (proj1 (Forall_forall _ _) Hall).
Qed.

Lemma filenames_strictly_sorted indices :
  StronglySorted N.lt indices ->
  Forall (fun i => (i < 100000)%N) indices ->
  StronglySorted sortsBefore (map filename indices).
Proof.
  induction 1 as [|i indices Hsorted IH Hall]; intros Hbound; simpl.
  - constructor.
  - apply Forall_cons in Hbound as [Hi Hbound].
    constructor; [by apply IH|].
    apply Forall_fmap, Forall_forall. intros j Hj. apply filename_lt.
    + by apply (proj1 (Forall_forall _ _) Hall).
    + by apply (proj1 (Forall_forall _ _) Hbound).
Qed.

Lemma seq_sorted start n : StronglySorted N.lt (N.of_nat <$> seq start n).
Proof.
  revert start. induction n as [|n IH]; intros start; simpl; constructor; [done|].
  apply Forall_fmap, Forall_seq. intros j Hj. simpl. lia.
Qed.

Lemma tasksOf_indices tsUrls :
  seg_index <$> tasksOf tsUrls = N.of_nat <$> seq 0 (length tsUrls).
Proof.
  unfold tasksOf. rewrite fmap_imap.
  rewrite <- (imap_seq_0 tsUrls N.of_nat). by apply imap_ext.
Qed.

Section Listing.
Variable env : Env.

Lemma elem_of_stored ts index body :
  (index, body) ∈ stored env ts <->
  exists t, t ∈ ts /\ seg_index t = index /\ segmentFile env t = Some body.
Proof.
  unfold stored. rewrite list_elem_of_omap. split.
  - intros (t & Ht & Hb). exists t. destruct (segmentFile env t); simplify_eq/=. done.
  - intros (t & Ht & <- & Hb). exists t. by rewrite Hb.
Qed.

Lemma stored_indices ts index :
  index ∈ (stored env ts).*1 -> index ∈ seg_index <$> ts.
Proof.
  rewrite !list_elem_of_fmap. intros ([i body] & -> & Hin).
  apply elem_of_stored in Hin as (t & Ht & <- & _). by exists t.
Qed.

Lemma stored_sorted ts :
  StronglySorted N.lt (seg_index <$> ts) ->
  StronglySorted N.lt (stored env ts).*1.
Proof.
  induction ts as [|t ts IH]; [constructor|].
  rewrite fmap_cons. intros [Hsorted Hall]%StronglySorted_inv.
  unfold stored. cbn [omap list_omap]. fold (stored env ts).
  destruct (segmentFile env t) as [body|]; cbn [fmap option_fmap option_map];
    [|by apply IH].
  rewrite fmap_cons. constructor; [by apply IH|].
  apply Forall_forall. intros j Hj%stored_indices.
  by apply (proj1 (Forall_forall _ _) Hall).
Qed.

Variable tsUrls : list string.
Variable dir : gmap string (list Byte.byte).

Hypothesis few_segments : (N.of_nat (length tsUrls) <= 100000)%N.
Hypothesis workspace :
  workspaceOf env (tasksOf tsUrls) (set_seq 0 (length (tasksOf tsUrls))) dir.

Local Abbreviation ts := (tasksOf tsUrls).

Lemma workspace_lookup name body :
  dir !! name = Some body <-> (exists index, name = filename index
                                 /\ (index, body) ∈ stored env ts).
Proof.
  clear few_segments.
  rewrite (workspace name body). split.
  - intros (i & t & _ & Ht & -> & Hb). exists (seg_index t). split; [done|].
    apply elem_of_stored. exists t. split; [|done].
    by eapply list_elem_of_lookup_2.
  - intros (index & -> & (t & Ht & <- & Hb)%elem_of_stored).
    apply list_elem_of_lookup in Ht as [i Hi]. exists i, t.
    split; [|done]. apply lookup_lt_Some in Hi. apply elem_of_set_seq. lia.
Qed.

Lemma stored_bound : Forall (fun i => (i < 100000)%N) (stored env ts).*1.
Proof.
  clear workspace.
  apply Forall_forall. intros index Hin%stored_indices.
  rewrite tasksOf_indices in Hin. apply list_elem_of_fmap in Hin as (i & -> & Hi).
  apply elem_of_seq in Hi. lia.
Qed.

Lemma stored_strictly_sorted : StronglySorted N.lt (stored env ts).*1.
Proof.
  clear workspace few_segments. apply stored_sorted. rewrite tasksOf_indices. apply seq_sorted. Qed.

(** The sorted listing is the file names of the segments that left a file,
    in index order. *)
Lemma workspace_sorted_listing :
  sort (filter (fun f => Js.endsWith ".ts" f = true) (readdir dir))
  = filename <$> (stored env ts).*1.
Proof.
  apply sort_filenames; [apply stored_strictly_sorted | apply stored_bound |].
  apply NoDup_Permutation.
  - apply NoDup_filter, NoDup_fst_map_to_list.
  - apply (StronglySorted_NoDup sortsBefore); [apply sortsBefore_irrefl|].
    apply filenames_strictly_sorted;
      [apply stored_strictly_sorted | apply stored_bound].
  - intros f. rewrite list_elem_of_filter, elem_of_readdir. split.
    + intros [_ [body Hf]]. apply workspace_lookup in Hf as (index & -> & Hin).
      apply list_elem_of_fmap. exists index. split; [done|].
      apply list_elem_of_fmap. by exists (index, body).
    + intros (index & -> & ([i body] & -> & Hin)%list_elem_of_fmap)%list_elem_of_fmap.
      split; [apply endsWith_filename|]. exists body.
      apply workspace_lookup. by exists i.
Qed.

(** The files hold what the segments left. *)
Lemma workspace_contents :
  map (fun f => default [] (dir !! f)) (filename <$> (stored env ts).*1)
  = (stored env ts).*2.
Proof.
  clear few_segments.
  rewrite <- !list_fmap_compose. apply list_fmap_ext.
  intros k [index body] Hk. simpl.
  assert (Hf : dir !! filename index = Some body).
  { apply workspace_lookup. exists index. split; [done|].
    by eapply list_elem_of_lookup_2. }
  by rewrite Hf.
Qed.

End Listing.

(** ** The output of a run *)

(** The output and the console of every complete run whose manifest
    resolves, in a fresh workspace. *)
Lemma downloadM3u8_output env m3u8Url maxConcurrency outputPath w tsUrls res w' :
  resolveManifest env m3u8Url = Ok tsUrls ->
  (N.of_nat (length tsUrls) <= 100000)%N ->
  1 <= maxConcurrency ->
  fs w !! tempFolderOf env = None ->
  downloadM3u8 env m3u8Url maxConcurrency outputPath w (res, w') ->
  (stored env (tasksOf tsUrls) <> [] ->
   outputs w' !! outputPath = Some (concat (stored env (tasksOf tsUrls)).*2))
  /\ (stored env (tasksOf tsUrls) = [] -> outputs w' = outputs w)
  /\ (forall t, t ∈ tasksOf tsUrls -> segmentBody env t = None ->
        failureLine env t ∈ console w').
Proof.
  intros Hresolve Hfew Hlimit Hfresh Hrun.
  inversion Hrun as [e He|tsUrls' w1 Hres (s & Hsteps & Hdone & <-) Hfin];
    [congruence|].
  rewrite Hresolve in Hres. injection Hres as <-.
  destruct (run_workspace env tsUrls maxConcurrency w Hfew Hfresh s Hlimit
              Hsteps Hdone) as ((dir & Hfs & Hws) & Hout & Hlog).
  assert (Hdir : fs (world s) !! tempFolderOf env = Some dir)
    by by rewrite Hfs, lookup_insert_eq.
  destruct (finish_outcome env outputPath (world s) dir Hdir)
    as (w2 & _ & Hw2 & _ & Hfinish).
  rewrite Hfinish in Hfin.
  assert (Hsame : outputs w' = outputs w2 /\ console w' = console w2).
  { by destruct (rmError env (tempFolderOf env)); injection Hfin as _ <-. }
  destruct Hsame as [Houtputs Hconsole]. rewrite Houtputs, Hconsole, Hw2.
  rewrite (mergeTsFiles_ok env _ outputPath _ dir) by done.
  rewrite (workspace_sorted_listing env tsUrls dir Hfew Hws).
  split; [|split].
  - intros Hsome.
    destruct (filename <$> (stored env (tasksOf tsUrls)).*1) as [|f names] eqn:E.
    { by apply fmap_nil_inv, fmap_nil_inv in E. }
    rewrite <- E. cbn [snd outputs console_log set_outputs].
    rewrite lookup_insert_eq. f_equal.
    rewrite written_flat_map.
    by rewrite (workspace_contents env tsUrls dir) by done.
  - intros ->. simpl. done.
  - intros t Ht Hnone.
    apply list_elem_of_lookup in Ht as [i Hi].
    assert (Hin : failureLine env t ∈ console (world s)).
    { apply (Hlog i t); [|done..]. apply lookup_lt_Some in Hi.
      apply elem_of_set_seq. lia. }
    destruct (filename <$> _) as [|f names];
      cbn [snd console console_log set_outputs].
    + set_solver.
    + unfold mkdir_p. destruct (fs _ !! dirname env outputPath);
        cbn [console console_log set_fs]; set_solver.
Qed.


(** A write that fails part-way leaves its bytes in the workspace, and
    they are merged: with the second segment missing and the write of the
    third cut after four bytes, the output is the first segment and these
    four bytes. *)
Lemma failed_write_leaves_part :
  segmentFile fullDiskEnv {| seg_url := "http://h/a/s2.ts"; seg_index := 2 |}
  = Some (bytesOf "segm")
  /\ concat (stored fullDiskEnv
               (tasksOf ["http://h/a/s0.ts"; "http://h/a/s1.ts"; "http://h/a/s2.ts"])).*2
     = bytesOf "segment 0;segm".
Proof. by vm_compute. Qed.



Lemma cleanup_after_assembly_witness :
  exists res w',
    downloadM3u8 exampleEnv "http://h/a/index.m3u8" 10 "downloads/out.ts"
      emptyWorld (res, w')
    /\ res = Ok tt
    /\ fs w' !! tempFolderOf exampleEnv = None.
Proof.
  destruct (downloadM3u8_total exampleEnv "http://h/a/index.m3u8" 10
              "downloads/out.ts" emptyWorld ltac:(lia)) as [[res w'] Hrun].
  exists res, w'. split; [exact Hrun|].
  exact (proj1 (proj2 (proj2 (cleanup_after_assembly exampleEnv
                  "http://h/a/index.m3u8" 10 "downloads/out.ts" emptyWorld
                  ["http://h/a/s0.ts"; "http://h/a/s1.ts"; "http://h/a/s2.ts"]
                  res w')) eq_refl Hrun) eq_refl).
Defined.

(** * Further properties *)

(** ** Delays of the retry wrapper *)

Lemma withDelays_cons {T} delay (o : outcome T) rest :
  rest <> [] ->
  withDelays delay (o :: rest) = Invoked o :: Slept delay :: withDelays delay rest.
Proof. by destruct rest. Qed.

Lemma retry_loop_traced {St T} (sleep : N -> St -> St) (fn : @operation St T)
    retries delay fuel i s tr :
  fuel + i = S retries -> i <= retries ->
  exists res s' outcomes,
    retry_loop (traced_sleep sleep) (traced fn) retries delay fuel i (s, tr)
    = (res, (s', tr ++ withDelays delay outcomes))
    /\ retry_loop sleep fn retries delay fuel i s = (res, s')
    /\ outcomes <> []
    /\ length outcomes <= fuel
    /\ last outcomes = Some res.
Proof.
  revert i s tr. induction fuel as [|fuel IH]; intros i s tr Hfuel Hi; [lia|].
  simpl. destruct (fn s) as [[v|e] s1] eqn:Hfn.
  - exists (Ok v), s1, [Ok v]. simpl. repeat split; (done || lia).
  - destruct (Nat.eqb_spec i retries) as [->|Hne].
    + exists (Throw e), s1, [Throw e]. simpl. repeat split; (done || lia).
    + destruct (IH (S i) (sleep delay s1) ((tr ++ [Invoked (Throw e)]) ++ [Slept delay]))
        as (res & s' & outcomes & Hrun & Hplain & Hne' & Hlen & Hlast); [lia..|].
      exists res, s', (Throw e :: outcomes).
      simpl traced_sleep. rewrite Hrun, Hplain, withDelays_cons by done.
      rewrite <- !app_assoc. simpl. repeat split; try done; try lia.
      rewrite last_cons, Hlast. done.
Qed.

(** X1. Seen from outside, a call of [retry] is a sequence of at most
    [retries + 1] invocations with exactly one delay of [delay] between an
    invocation and the next one, and no delay after the last invocation,
    be it a success or the final failure. *)
Theorem retry_delays {St T : Type} (sleep : N -> St -> St)
    (fn : @operation St T) (retries : nat) (delay : N) (s : St) :
  exists res s' outcomes,
    retry (traced_sleep sleep) (traced fn) retries delay (s, [])
    = (res, (s', withDelays delay outcomes))
    /\ retry sleep fn retries delay s = (res, s')
    /\ outcomes <> []
    /\ length outcomes <= retries + 1
    /\ last outcomes = Some res.
Proof.
  destruct (retry_loop_traced sleep fn retries delay (S retries) 0 s [])
    as (res & s' & outcomes & Hrun & Hplain & Hne & Hlen & Hlast); [lia..|].
  exists res, s', outcomes. unfold retry. rewrite Hrun, Hplain.
  repeat split; try done. lia.
Qed.

(** ** File names, for every index *)

Lemma readDigits_zero s : readDigits (String "0" s) = readDigits s.
Proof.
  unfold readDigits. simpl. by destruct (NilEmpty.uint_of_string s).
Qed.

Lemma readDigits_toString n : readDigits (Js.toString n) = Some n.
Proof.
  unfold readDigits, Js.toString.
  assert (Hnn : N.to_uint n <> Decimal.Nil).
  { destruct n; [done|]. apply DecimalPos.Unsigned.to_uint_nonnil. }
  replace (NilZero.string_of_uint (N.to_uint n))
    with (NilEmpty.string_of_uint (N.to_uint n))
    by by destruct (N.to_uint n).
  rewrite NilEmpty.usu. simpl. by rewrite DecimalN.Unsigned.of_to.
Qed.

Lemma readDigits_padStart width n :
  readDigits (Js.padStart width "0" (Js.toString n)) = Some n.
Proof.
  unfold Js.padStart.
  induction (width - String.length (Js.toString n)) as [|k IH]; simpl.
  - apply readDigits_toString.
  - by rewrite append_String, readDigits_zero.
Qed.

Lemma append_inv_tail a b c : a +:+ c = b +:+ c -> a = b.
Proof.
  intros H.
  assert (Hlist : String.list_ascii_of_string a ++ String.list_ascii_of_string c
                  = String.list_ascii_of_string b ++ String.list_ascii_of_string c).
  { assert (Happ : forall x y, String.list_ascii_of_string (x +:+ y)
                      = String.list_ascii_of_string x ++ String.list_ascii_of_string y)
      by (intros x y; induction x; simpl; [done | by f_equal]).
    by rewrite <- !Happ, H. }
  apply app_inv_tail in Hlist.
  by rewrite <- (String.string_of_list_ascii_of_string a),
    <- (String.string_of_list_ascii_of_string b), Hlist.
Qed.

Lemma filename_distinct (i j : N) : i <> j -> filename i <> filename j.
Proof.
  unfold filename. intros Hne H%append_inv_tail.
  assert (Hi := readDigits_padStart 5 i). rewrite H, readDigits_padStart in Hi.
  by injection Hi.
Qed.

(** X2. The index can be read back from the digits of a file name, so two
    different indices never share a file name, however large they are (the
    names of indices of six or more digits are only out of order). *)
Theorem filename_injective (i j : N) :
  readDigits (Js.padStart 5 "0" (Js.toString i)) = Some i
  /\ (i <> j -> filename i <> filename j).
Proof.
  split; [apply readDigits_padStart | apply filename_distinct].
Qed.

Lemma filename_injective_witness : filename 99999 <> filename 100000.
Proof. apply (proj2 (filename_injective 99999 100000)). lia. Defined.

(** ** The segment fetcher and the workspace *)

(** X4. Two tasks of different indices do not interfere: run one after the
    other in an existing workspace, in either order, they leave the same
    files, the same progress and the same lines on the console, up to the
    order of the lines. *)
Theorem segmentTasks_commute env folder t1 t2 w dir :
  fs w !! folder = Some dir ->
  seg_index t1 <> seg_index t2 ->
  let w12 := (segmentTask env folder t2 (segmentTask env folder t1 w).2).2 in
  let w21 := (segmentTask env folder t1 (segmentTask env folder t2 w).2).2 in
  fs w12 = fs w21 /\ outputs w12 = outputs w21 /\ progress w12 = progress w21
  /\ console w12 ≡ₚ console w21.
Proof.
  intros Hdir Hne w12 w21. unfold w12, w21.
  assert (Hnames : filename (seg_index t1) <> filename (seg_index t2))
    by by apply filename_distinct.
  rewrite (segmentTask_spec env folder t1 w dir Hdir),
    (segmentTask_spec env folder t2 w dir Hdir). cbn [snd].
  destruct (segmentFile env t1) as [c1|] eqn:F1,
           (segmentFile env t2) as [c2|] eqn:F2,
           (segmentBody env t1) as [b1|] eqn:B1,
           (segmentBody env t2) as [b2|] eqn:B2;
    cbn [place];
    erewrite (segmentTask_spec env folder t2), (segmentTask_spec env folder t1)
      by (cbn [fs increment console_log set_fs];
          first [apply lookup_insert_eq | exact Hdir]);
    rewrite F1, F2, B1, B2;
    cbn [snd place fs outputs progress console increment console_log set_fs];
    rewrite ?insert_insert_eq;
    (split; [first [done | by rewrite (insert_insert_ne dir
                                         (filename (seg_index t1))) by done]|]);
    (split; [done|]); (split; [done|]); try done.
  all: rewrite <- !app_assoc; apply Permutation_app_head, (Permutation_swap _ _ []).
Qed.

Lemma segmentTasks_commute_witness :
  let t0 := {| seg_url := "http://h/a/s0.ts"; seg_index := 0 |} in
  let t1 := {| seg_url := "http://h/a/s1.ts"; seg_index := 1 |} in
  fs (segmentTask exampleEnv "ts_temp/17" t1
        (segmentTask exampleEnv "ts_temp/17" t0 gapWorld).2).2
  = fs (segmentTask exampleEnv "ts_temp/17" t0
          (segmentTask exampleEnv "ts_temp/17" t1 gapWorld).2).2.
Proof.
  intros t0 t1.
  refine (proj1 (segmentTasks_commute exampleEnv "ts_temp/17" t0 t1 gapWorld _
                   eq_refl _)).
  simpl. lia.
Defined.


(** ** The assembler and the files around it *)

Lemma length_written_flat_map env folder dir names :
  length (written (flat_map (writesOf env folder dir) names))
  = sum_list (map (fun f => length (default [] (dir !! f))) names).
Proof.
  rewrite written_flat_map.
  induction names as [|f names IH]; simpl; [done|].
  by rewrite length_app, IH.
Qed.

Lemma mkdir_p_rest d w :
  outputs (mkdir_p d w) = outputs w /\ progress (mkdir_p d w) = progress w
  /\ console (mkdir_p d w) = console w.
Proof. unfold mkdir_p. by destruct (fs w !! d). Qed.


Lemma sorted_names_insert_other (dir : gmap string (list Byte.byte)) name content :
  Js.endsWith ".ts" name = false ->
  sort (filter (fun f => Js.endsWith ".ts" f = true) (readdir (<[name := content]> dir)))
  = sort (filter (fun f => Js.endsWith ".ts" f = true) (readdir dir)).
Proof.
  intros Hname.
  destruct (merged_names (<[name := content]> dir)) as (Hs1 & Hn1 & Hin1).
  destruct (merged_names dir) as (Hs2 & Hn2 & Hin2).
  apply (StronglySorted_unique String.le); [done..|].
  apply NoDup_Permutation; [done..|].
  intros f. rewrite Hin1, Hin2.
  destruct (decide (f = name)) as [->|Hne]; [split; intros [_ ?]; congruence|].
  by rewrite lookup_insert_ne.
Qed.

Lemma writes_insert_other env folder (dir : gmap string (list Byte.byte))
    name content names :
  (forall f, f ∈ names -> f <> name) ->
  flat_map (writesOf env folder (<[name := content]> dir)) names
  = flat_map (writesOf env folder dir) names.
Proof.
  induction names as [|f names IH]; intros Hall; simpl; [done|].
  rewrite IH by (intros f' Hf'; apply Hall; set_solver).
  f_equal. unfold writesOf. rewrite lookup_insert_ne; [done|].
  intros ->. by apply (Hall f); [set_solver|].
Qed.

(** X7. A file of the workspace whose name does not end in [.ts] is
    ignored: with or without it, [mergeTsFiles] has the same outcome and
    writes the same outputs. *)
Theorem mergeTsFiles_ignores_other_files env folder outputPath w dir name content :
  fs w !! folder = Some dir ->
  Js.endsWith ".ts" name = false ->
  let w' := set_fs (<[folder := <[name := content]> dir]> (fs w)) w in
  (mergeTsFiles env folder outputPath w').1 = (mergeTsFiles env folder outputPath w).1
  /\ outputs (mergeTsFiles env folder outputPath w').2
     = outputs (mergeTsFiles env folder outputPath w).2.
Proof.
  intros Hdir Hname w'.
  assert (Hdir' : fs w' !! folder = Some (<[name := content]> dir))
    by apply lookup_insert_eq.
  rewrite (mergeTsFiles_ok env folder outputPath w dir Hdir),
    (mergeTsFiles_ok env folder outputPath w' _ Hdir').
  rewrite sorted_names_insert_other by done.
  destruct (merged_names dir) as (_ & _ & Hin).
  destruct (sort _) as [|f names] eqn:E; [done|]. rewrite <- E in *.
  cbn [fst snd outputs set_outputs]. split; [done|].
  cbn [outputs set_fs].
  f_equal. f_equal. apply writes_insert_other.
  intros f' Hf' ->. apply Hin in Hf' as [_ Hts]. congruence.
Qed.

Lemma mergeTsFiles_ignores_other_files_witness :
  outputs (mergeTsFiles exampleEnv "ts_temp/17" "downloads/out.ts"
             (set_fs (<["ts_temp/17" :=
                          <["00001.tmp" := bytesOf "BBB"]>
                            {[ "00002.ts" := bytesOf "CCC";
                               "00000.ts" := bytesOf "AAA";
                               "note.txt" := bytesOf "zzz" ]}]> (fs gapWorld))
                gapWorld)).2
  = outputs (mergeTsFiles exampleEnv "ts_temp/17" "downloads/out.ts" gapWorld).2.
Proof.
  exact (proj2 (mergeTsFiles_ignores_other_files exampleEnv "ts_temp/17"
                  "downloads/out.ts" gapWorld _ "00001.tmp" (bytesOf "BBB")
                  eq_refl eq_refl)).
Defined.

(** ** The scheduler, for every limit *)

Section SchedulerAnyLimit.
Context {Task Cont W : Type}.
Variable start : Task -> Cont.
Variable resume : Cont -> W -> option Cont * W.
Variable cost : Cont -> nat.
Variable tasks : list Task.
Variable limit : nat.

Hypothesis resume_cost :
  forall k w k' w', resume k w = (Some k', w') -> cost k' < cost k.

Local Abbreviation lstep := (step start resume tasks limit).
Local Abbreviation loose := (@looseInvariant Task Cont W tasks).

Lemma looseInvariant_init w : loose (init w).
Proof. clear resume_cost cost. split; simpl; try done; lia. Qed.

Lemma looseInvariant_step s s' : lstep s s' -> loose s -> loose s'.
Proof.
  clear resume_cost cost.
  intros Hstep [Hstarted Hnext Hpending Hrunning Hpc].
  destruct Hstep as [s t Hloop Ht running'|s Hloop Ht|s i k k' w' Hi Hres
                    |s i k w' Hi Hres|s i Hi Hnone|s raced i Hrace Hi Hni
                    |s awaited Hall Hsettled];
    split; simpl; try done.
  - rewrite Hstarted. symmetry. by apply take_S_r.
  - by apply lookup_lt_Some in Ht.
  - rewrite dom_insert_L. set_solver.
  - intros i. unfold running'. rewrite elem_of_union, elem_of_singleton.
    intros [->|Hi]; [lia|]. apply Hrunning in Hi. lia.
  - case_decide; [|done]. split; [done|]. unfold running'. set_solver.
  - split; [done|]. apply lookup_ge_None in Ht. lia.
  - rewrite dom_insert_L. apply elem_of_dom_2 in Hi. set_solver.
  - destruct (pc s); try done. destruct Hpc as [Hempty _].
    rewrite Hempty in Hi. done.
  - rewrite dom_delete_L. set_solver.
  - destruct (pc s); try done. destruct Hpc as [Hempty _].
    rewrite Hempty in Hi. done.
  - apply not_elem_of_dom in Hnone. set_solver.
  - intros j Hj. apply Hrunning. set_solver.
  - destruct (pc s); try done.
    + destruct Hpc as (? & ?). split; [set_solver | done].
    + destruct Hpc as (? & ?). split; [set_solver | done].
  - rewrite Hall in Hpc. destruct Hpc as (Hsub & Hlen).
    split; [|done]. apply map_empty. intros i.
    destruct (pending s !! i) eqn:Hi; [|done].
    assert (Hin : i ∈ awaited).
    { apply Hsub, Hpending. by apply elem_of_dom_2 in Hi. }
    rewrite (Hsettled i Hin) in Hi. done.
Qed.

Lemma looseInvariant_reachable w s : rtc lstep (init w) s -> loose s.
Proof.
  clear resume_cost cost. intros Hrun.
  refine (rtc_ind_r (R:=lstep) (fun s => loose s) (init w) _ _ s Hrun).
  - apply looseInvariant_init.
  - intros y z _ Hstep Hy. by apply (looseInvariant_step y).
Qed.

Lemma loose_progress s : loose s -> pc s <> Done -> exists s', lstep s s'.
Proof.
  clear resume_cost cost.
  intros [Hstarted Hnext Hpending Hrunning Hpc] Hpcs.
  assert (Hresume : forall i k, pending s !! i = Some k -> exists s', lstep s s').
  { intros i k Hi. destruct (resume k (world s)) as [[k'|] w'] eqn:Hres.
    - eexists. by eapply step_task.
    - eexists. by eapply step_settle. }
  destruct (pc s) as [|raced|awaited|] eqn:Hc; [| | |done].
  - destruct (tasks !! next s) as [t|] eqn:Ht.
    + eexists. by eapply step_start.
    + eexists. by eapply step_exit.
  - destruct Hpc as (Hsub & Hne).
    destruct (decide (raced ∖ running s = ∅)) as [Hall|Hsome].
    + apply set_choose_L in Hne as [i Hi].
      assert (Hin : i ∈ running s) by set_solver.
      destruct (pending s !! i) as [k|] eqn:Hk; [by eapply Hresume|].
      eexists. by eapply step_finally.
    + apply set_choose_L in Hsome as [i Hi].
      eexists. eapply (step_race _ _ _ _ s raced i); set_solver.
  - destruct (decide (pending s = ∅)) as [Hempty|Hsome].
    + eexists. eapply step_all; [done|]. intros i _. by rewrite Hempty.
    + apply map_choose in Hsome as (i & k & Hi). by eapply Hresume.
Qed.

Lemma loose_terminates s : loose s -> exists s', rtc lstep s s' /\ pc s' = Done.
Proof.
  remember (schedMeasure start cost tasks s) as n eqn:Hn. revert s Hn.
  induction n as [n IH] using lt_wf_ind. intros s -> Hinv.
  assert (Hdec : pc s = Done \/ pc s <> Done)
    by (destruct (pc s); auto; right; discriminate).
  destruct Hdec as [Hdone|Hrun].
  - exists s. by split.
  - destruct (loose_progress s Hinv Hrun) as [s1 Hstep].
    destruct (IH (schedMeasure start cost tasks s1)
                (schedMeasure_step start resume cost tasks limit resume_cost
                   _ _ Hstep) s1 eq_refl)
      as (s' & Hrtc & Hdone); [by eapply looseInvariant_step|].
    exists s'. split; [by eapply rtc_l | done].
Qed.

End SchedulerAnyLimit.

(** X8. [runWithConcurrency] returns for every limit, 0 included, when the
    promises of the tasks settle: from every state of a call a returned
    state can be reached, and in a returned state every task has been
    called, once and in order, and no promise is in flight. *)
Theorem runWithConcurrency_returns {Task Cont W : Type} (start : Task -> Cont)
    (resume : Cont -> W -> option Cont * W) (cost : Cont -> nat)
    (tasks : list Task) (limit : nat) (w : W) (s : sched) :
  (forall k w k' w', resume k w = (Some k', w') -> cost k' < cost k) ->
  rtc (step start resume tasks limit) (init w) s ->
  (exists s', rtc (step start resume tasks limit) s s' /\ pc s' = Done)
  /\ (pc s = Done -> started s = tasks /\ inFlight s = ∅).
Proof.
  intros Hcost Hrun.
  assert (Hinv : looseInvariant tasks s) by by eapply looseInvariant_reachable.
  split; [by eapply loose_terminates|].
  intros Hdone. destruct Hinv as [Hstarted _ _ _ Hpc]. rewrite Hdone in Hpc.
  destruct Hpc as [Hempty Hlen]. split.
  - rewrite Hstarted, Hlen. apply take_ge. lia.
  - unfold inFlight. by rewrite Hempty, dom_empty_L.
Qed.

Lemma runWithConcurrency_returns_witness :
  exists s' : @sched nat nat nat,
    rtc (step id countdown [1; 0; 2] 0) (init 0) s' /\ pc s' = Done.
Proof.
  assert (Hcost : forall k w k' w' : nat,
            countdown k w = (Some k', w') -> id k' < id k).
  { intros [|k] w k' w' H; simpl in H; [discriminate H|].
    injection H as <- _. unfold id. lia. }
  exact (proj1 (runWithConcurrency_returns id countdown id [1; 0; 2] 0 0 (init 0)
                  Hcost (rtc_refl _ _))).
Defined.

(** ** Atomic tasks, for every limit *)

Lemma omap_lookup_seq {A} (l1 l2 : list A) :
  omap (fun i => (l1 ++ l2) !! i) (seq (length l1) (length l2)) = l2.
Proof.
  revert l1. induction l2 as [|x l2 IH]; intros l1; [done|].
  cbn [length seq omap list_omap].
  rewrite lookup_app_r, Nat.sub_diag by lia. cbn [lookup list_lookup].
  f_equal. specialize (IH (l1 ++ [x])).
  rewrite <- app_assoc, length_app in IH. cbn [app length] in IH.
  by rewrite Nat.add_1_r in IH.
Qed.

Section AtomicAnyLimit.
Context {Task W : Type}.
Variable run : Task -> W -> W.
Variable tasks : list Task.
Variable limit : nat.

Local Abbreviation astep :=
  (step (fun t : Task => t) (fun t w => (None, run t w)) tasks limit).

Lemma settledSet_done_loose (s : @sched Task Task W) :
  looseInvariant tasks s -> pc s = Done ->
  settledSet s = set_seq 0 (length tasks).
Proof.
  intros [_ _ _ _ Hpc] Hdone. rewrite Hdone in Hpc. destruct Hpc as [Hempty Hlen].
  unfold settledSet. rewrite Hempty, Hlen, dom_empty_L. set_solver.
Qed.

Lemma effects_once w0 s :
  rtc astep (init w0) s ->
  exists order,
    NoDup order /\ (forall i, i ∈ order <-> i ∈ settledSet s)
    /\ world s = runAll run w0 (omap (fun i => tasks !! i) order).
Proof.
  intros Hrun.
  refine (proj1 (settled_invariant run tasks limit
                   (fun settled w =>
                      exists order, NoDup order
                        /\ (forall i, i ∈ order <-> i ∈ settled)
                        /\ w = runAll run w0 (omap (fun i => tasks !! i) order))
                   w0 s _ _ Hrun)).
  - exists []. split; [constructor|]. split; [set_solver | done].
  - intros settled i t w Hi Ht (order & Hnd & Hin & ->).
    exists (order ++ [i]). split; [|split].
    + apply NoDup_app. split; [done|]. split; [|apply NoDup_singleton].
      intros j Hj ->%list_elem_of_singleton. by apply Hi, Hin.
    + intros j. rewrite elem_of_app, list_elem_of_singleton, Hin. set_solver.
    + rewrite omap_app. cbn [omap list_omap]. rewrite Ht.
      unfold runAll. by rewrite foldl_app.
Qed.

End AtomicAnyLimit.

(** X9. When every task is atomic, a complete call of [runWithConcurrency]
    applies the effect of every task exactly once: whatever the limit and
    the order in which the promises settle, the final world is the one
    reached by running the tasks one after the other in some order. *)
Theorem runWithConcurrency_effects_once {Task W : Type} (run : Task -> W -> W)
    (tasks : list Task) (limit : nat) (w0 w' : W) :
  runWithConcurrency (fun t : Task => t) (fun t w => (None, run t w))
    tasks limit w0 w' ->
  exists ts, ts ≡ₚ tasks /\ w' = runAll run w0 ts.
Proof.
  intros (s & Hrun & Hdone & <-).
  destruct (effects_once run tasks limit w0 s Hrun) as (order & Hnd & Hin & Hw).
  exists (omap (fun i => tasks !! i) order). split; [|done].
  assert (Hperm : order ≡ₚ seq 0 (length tasks)).
  { apply NoDup_Permutation; [done | apply NoDup_seq |].
    intros i. rewrite Hin, (settledSet_done_loose tasks s);
      [|by eapply looseInvariant_reachable | done].
    rewrite elem_of_set_seq, elem_of_seq. lia. }
  rewrite Hperm. pose proof (omap_lookup_seq [] tasks) as Hall.
  cbn [app length] in Hall. by rewrite Hall.
Qed.

Lemma runWithConcurrency_effects_once_witness :
  exists (w' ts : list nat),
    runWithConcurrency (fun t : nat => t) (fun t w => (None, t :: w))
      [1; 2; 3] 2 [] w'
    /\ ts ≡ₚ [1; 2; 3] /\ w' = runAll (fun t w => t :: w) [] ts.
Proof.
  destruct (loose_terminates (fun t : nat => t) (fun t w => (None, t :: w))
              (fun _ => 0) [1; 2; 3] 2
              (fun k w k' w' (H : (None, k :: w) = (Some k', w')) =>
                 ltac:(discriminate H))
              (init ([] : list nat)) (looseInvariant_init _ _))
    as (s & Hrun & Hdone).
  assert (Hcall : runWithConcurrency (fun t : nat => t) (fun t w => (None, t :: w))
                    [1; 2; 3] 2 [] (world s)) by by exists s.
  destruct (runWithConcurrency_effects_once (fun t w => t :: w) [1; 2; 3] 2 []
              (world s) Hcall) as (ts & Hperm & Hw).
  by exists (world s), ts.
Defined.

(** ** The scheduler at its limits *)

Section OneAtATime.
Context {Task W : Type}.
Variable run : Task -> W -> W.
Variable tasks : list Task.
Variable limit : nat.
Variable w0 : W.

Hypothesis limit_le_1 : limit <= 1.

Local Abbreviation astep :=
  (step (fun t : Task => t) (fun t w => (None, run t w)) tasks limit).

(** The tasks whose effect has been applied: all those called, but the
    one in flight. *)
Local Abbreviation applied s :=
  (take (if decide (pending s = ∅) then next s else pred (next s)) tasks).

Lemma oneAtATime_reachable (s : @sched Task Task W) :
  rtc astep (init w0) s ->
  oneAtATime s /\ world s = runAll run w0 (applied s).
Proof.
  intros Hrun.
  refine (rtc_ind_r (R:=astep)
            (fun s => oneAtATime s /\ world s = runAll run w0 (applied s))
            (init w0) _ _ s Hrun); [done|].
  clear s Hrun. intros s s' Hrun Hstep [Hone Hworld].
  pose proof (looseInvariant_reachable _ _ tasks limit w0 s Hrun)
    as [_ Hnext Hpending Hrunning Hpc].
  destruct (settled_invariant run tasks limit (fun _ _ => True) w0 s I
              (fun _ _ _ _ _ _ _ => I) Hrun) as [_ Hpend].
  unfold oneAtATime in *.
  destruct Hstep as [s t Hloop Ht running'|s Hloop Ht|s i k k' w' Hi Hres
                    |s i k w' Hi Hres|s i Hi Hnone|s raced i Hrace Hi Hni
                    |s awaited Hall Hsettled]; cbn [pc next running pending world].
  - rewrite Hloop in Hone.
    assert (Hempty : pending s = ∅).
    { apply dom_empty_iff_L. set_solver. }
    assert (Hr : running' = {[next s]}) by (unfold running'; set_solver).
    rewrite Hr, size_singleton, decide_True by lia.
    split; [split; [done|]; split; [lia | done]|].
    rewrite decide_False by (intros H; by apply (insert_non_empty (pending s) (next s) t)).
    rewrite Hworld, Hempty, decide_True by done. done.
  - rewrite Hloop in Hone. done.
  - done.
  - injection Hres as <-.
    assert (Hin : i ∈ running s) by (apply Hpending; by apply elem_of_dom_2 in Hi).
    destruct (pc s) as [|raced|awaited|] eqn:Hc;
      try (rewrite Hone in Hin; by apply not_elem_of_empty in Hin).
    destruct Hone as (-> & Hpos & Hsub).
    assert (i = pred (next s)) as ->
      by (apply Hsub in Hin; by apply elem_of_singleton in Hin).
    assert (Hdel : delete (pred (next s)) (pending s) = ∅).
    { apply map_empty. intros j. rewrite lookup_delete.
      destruct (decide (pred (next s) = j)) as [Hj|Hj]; [done|].
      apply not_elem_of_dom. intros Hd.
      apply Hpending, Hsub, elem_of_singleton in Hd. congruence. }
    split; [done|]. rewrite Hdel, decide_True by done.
    rewrite Hworld, decide_False by (intros H; by rewrite H in Hi).
    destruct (Hpend _ _ Hi) as [Ht _].
    replace (next s) with (S (pred (next s))) at 2 by lia.
    rewrite (take_S_r _ _ _ Ht). unfold runAll. by rewrite foldl_app.
  - split; [|done]. destruct (pc s).
    + rewrite Hone. set_solver.
    + destruct Hone as (? & ? & ?). split; [done|]. split; [done|]. set_solver.
    + rewrite Hone. set_solver.
    + rewrite Hone. set_solver.
  - rewrite Hrace in Hone. destruct Hone as (-> & Hpos & Hsub).
    split; [|done]. apply elem_of_singleton in Hi. subst i.
    apply set_eq. intros j. split; [|set_solver].
    intros Hj. assert (j = pred (next s)) as ->
      by (apply Hsub in Hj; by apply elem_of_singleton in Hj).
    done.
  - rewrite Hall in Hone. done.
Qed.

End OneAtATime.

Section OneAtATimeAny.
Context {Task Cont W : Type}.
Variable start : Task -> Cont.
Variable resume : Cont -> W -> option Cont * W.
Variable tasks : list Task.
Variable limit : nat.
Variable w0 : W.

Hypothesis limit_le_1 : limit <= 1.

(** The same for tasks of any shape: the loop only goes on once the
    promise it has just started has left [running]. *)
Lemma oneAtATime_any (s : @sched Task Cont W) :
  rtc (step start resume tasks limit) (init w0) s -> oneAtATime s.
Proof.
  intros Hrun.
  refine (rtc_ind_r (R:=step start resume tasks limit) (fun s => oneAtATime s)
            (init w0) _ _ s Hrun); [done|].
  clear s Hrun. intros s s' Hrun Hstep Hone.
  unfold oneAtATime in *.
  destruct Hstep as [s t Hloop Ht running'|s Hloop Ht|s i k k' w' Hi Hres
                    |s i k w' Hi Hres|s i Hi Hnone|s raced i Hrace Hi Hni
                    |s awaited Hall Hsettled]; cbn [pc next running pending world].
  - rewrite Hloop in Hone.
    assert (Hr : running' = {[next s]}).
    { unfold running'. rewrite Hone. apply set_eq. intros j.
      rewrite elem_of_union, elem_of_singleton.
      split; [intros [?|[]%not_elem_of_empty]; done | by left]. }
    rewrite Hr, size_singleton, decide_True by lia.
    split; [done|]. split; [lia | done].
  - rewrite Hloop in Hone. done.
  - done.
  - done.
  - destruct (pc s).
    + rewrite Hone. apply set_eq. intros j. rewrite elem_of_difference.
      split; [by intros [[]%not_elem_of_empty _] | by intros []%not_elem_of_empty].
    + destruct Hone as (? & ? & Hsub). split; [done|]. split; [done|].
      intros j [Hj _]%elem_of_difference. by apply Hsub.
    + rewrite Hone. apply set_eq. intros j. rewrite elem_of_difference.
      split; [by intros [[]%not_elem_of_empty _] | by intros []%not_elem_of_empty].
    + rewrite Hone. apply set_eq. intros j. rewrite elem_of_difference.
      split; [by intros [[]%not_elem_of_empty _] | by intros []%not_elem_of_empty].
  - rewrite Hrace in Hone. destruct Hone as (-> & Hpos & Hsub).
    apply elem_of_singleton in Hi. subst i.
    apply set_eq. intros j. split; [|by intros []%not_elem_of_empty].
    intros Hj. assert (j = pred (next s)) as ->
      by (apply Hsub in Hj; by apply elem_of_singleton in Hj).
    done.
  - rewrite Hall in Hone. done.
Qed.

(** Hence at most one promise is in flight. *)
Lemma oneAtATime_inFlight (s : @sched Task Cont W) :
  rtc (step start resume tasks limit) (init w0) s -> size (inFlight s) <= 1.
Proof.
  intros Hrun. pose proof (oneAtATime_any s Hrun) as Hone.
  pose proof (looseInvariant_reachable start resume tasks limit w0 s Hrun)
    as [_ Hnext Hpending Hrunning Hpc].
  unfold inFlight. apply subseteq_size in Hpending.
  unfold oneAtATime in Hone. destruct (pc s).
  - rewrite Hone, size_empty in Hpending. lia.
  - destruct Hone as (-> & _ & Hsub%subseteq_size).
    rewrite size_singleton in Hsub. lia.
  - rewrite Hone, size_empty in Hpending. lia.
  - rewrite Hone, size_empty in Hpending. lia.
Qed.

End OneAtATimeAny.

(** X10. With a limit of 0 or 1 the tasks run one at a time: whatever the
    tasks, at most one promise is in flight in any state of a call, and
    when the tasks are atomic the world of a returned call is the one
    reached by running the tasks one after the other in submission
    order. *)
Theorem runWithConcurrency_sequential (limit : nat) :
  limit <= 1 ->
  (forall (Task Cont W : Type) (start : Task -> Cont)
          (resume : Cont -> W -> option Cont * W) (tasks : list Task) (w0 : W)
          (s : sched),
      rtc (step start resume tasks limit) (init w0) s ->
      size (inFlight s) <= 1)
  /\ (forall (Task W : Type) (run : Task -> W -> W) (tasks : list Task) (w0 : W)
             (s : sched),
        rtc (step (fun t : Task => t) (fun t w => (None, run t w)) tasks limit)
          (init w0) s ->
        pc s = Done -> world s = runAll run w0 tasks).
Proof.
  intros Hlimit. split.
  - intros Task Cont W start resume tasks w0 s Hrun.
    by apply (oneAtATime_inFlight start resume tasks limit w0).
  - intros Task W run tasks w0 s Hrun Hdone.
    destruct (oneAtATime_reachable run tasks limit w0 Hlimit s Hrun)
      as [Hone Hworld].
    pose proof (looseInvariant_reachable _ _ tasks limit w0 s Hrun)
      as [_ Hnext Hpending Hrunning Hpc].
    rewrite Hdone in Hpc. destruct Hpc as [Hempty Hlen].
    rewrite Hworld, Hempty, decide_True, Hlen by done.
    by rewrite take_ge by lia.
Qed.

Lemma runWithConcurrency_sequential_witness :
  exists s : @sched nat nat (list nat),
    rtc (step (fun t : nat => t) (fun t w => (None, t :: w)) [1; 2; 3] 0)
      (init []) s
    /\ pc s = Done /\ size (inFlight s) <= 1 /\ world s = [3; 2; 1].
Proof.
  destruct (loose_terminates (fun t : nat => t) (fun t w => (None, t :: w))
              (fun _ => 0) [1; 2; 3] 0
              (fun k w k' w' (H : (None, k :: w) = (Some k', w')) =>
                 ltac:(discriminate H))
              (init ([] : list nat)) (looseInvariant_init _ _))
    as (s & Hrun & Hdone).
  exists s. split; [exact Hrun|]. split; [exact Hdone|].
  destruct (runWithConcurrency_sequential 0 (le_S 0 0 (le_n 0))) as [Hone Hseq].
  split.
  - exact (Hone nat nat (list nat) _ _ _ _ s Hrun).
  - exact (Hseq nat (list nat) (fun t w => t :: w) [1; 2; 3] [] s Hrun Hdone).
Defined.

Section NoRace.
Context {Task Cont W : Type}.
Variable start : Task -> Cont.
Variable resume : Cont -> W -> option Cont * W.
Variable tasks : list Task.
Variable limit : nat.

Hypothesis roomy : length tasks < limit.

Lemma never_races w s :
  rtc (step start resume tasks limit) (init w) s ->
  size (running s) <= next s /\ next s <= length tasks
  /\ (pc s = Loop \/ (exists awaited, pc s = AwaitAll awaited) \/ pc s = Done).
Proof.
  intros Hrun.
  refine (rtc_ind_r (R:=step start resume tasks limit)
            (fun s => size (running s) <= next s /\ next s <= length tasks
                      /\ (pc s = Loop \/ (exists awaited, pc s = AwaitAll awaited)
                          \/ pc s = Done))
            (init w) _ _ s Hrun).
  - cbn [init running next pc]. rewrite size_empty.
    split; [lia|]. split; [lia|]. by left.
  - clear s Hrun. intros s s' _ Hstep (Hsize & Hnext & Hpc).
    destruct Hstep as [s t Hloop Ht running'|s Hloop Ht|s i k k' w' Hi Hres
                      |s i k w' Hi Hres|s i Hi Hnone|s raced i Hrace Hi Hni
                      |s awaited Hall Hsettled]; cbn [pc next running]; try done.
    + apply lookup_lt_Some in Ht.
      assert (size running' <= S (size (running s))).
      { unfold running'. rewrite size_union_alt, size_singleton.
        assert (Hsub : running s ∖ {[next s]} ⊆ running s) by set_solver.
        apply subseteq_size in Hsub. lia. }
      split; [lia|]. split; [lia|]. rewrite decide_False by lia. by left.
    + split; [done|]. split; [done|]. right. left. by eexists.
    + assert (Hsub : running s ∖ {[i]} ⊆ running s) by set_solver.
      apply subseteq_size in Hsub. split; [lia | done].
    + rewrite Hrace in Hpc. destruct Hpc as [?|[[? ?]|?]]; done.
    + split; [done|]. split; [done|]. by right; right.
Qed.

End NoRace.

(** X11. When the limit is larger than the number of tasks, the loop never
    waits for a slot: no state of a call awaits [Promise.race], so every
    task is called before anything is awaited. *)
Theorem runWithConcurrency_no_race {Task Cont W : Type} (start : Task -> Cont)
    (resume : Cont -> W -> option Cont * W) (tasks : list Task) (limit : nat)
    (w : W) (s : sched) :
  length tasks < limit ->
  rtc (step start resume tasks limit) (init w) s ->
  forall raced, pc s <> AwaitRace raced.
Proof.
  intros Hroomy Hrun raced Hpc.
  destruct (never_races start resume tasks limit Hroomy w s Hrun)
    as (_ & _ & [H|[[? H]|H]]); congruence.
Qed.

Lemma runWithConcurrency_no_race_witness :
  let start (t : nat) := t in
  let resume (k : nat) (w : unit) := (@None nat, w) in
  exists s,
    step start resume [1; 0; 2] 4 (init tt) s
    /\ started s = [1]
    /\ forall raced, pc s <> AwaitRace raced.
Proof.
  intros start resume.
  pose proof (step_start start resume [1; 0; 2] 4 (init tt) 1 eq_refl eq_refl)
    as Hstep.
  eexists. split; [exact Hstep|]. split; [reflexivity|].
  apply (runWithConcurrency_no_race start resume [1; 0; 2] 4 tt).
  - simpl. lia.
  - apply rtc_once. exact Hstep.
Defined.

(** ** Lines of a manifest *)

Lemma trimEnd_idemp s : Js.trimEnd (Js.trimEnd s) = Js.trimEnd s.
Proof.
  induction s as [|c s IH]; [done|]. simpl.
  destruct (Js.isWhiteSpace c && String.eqb (Js.trimEnd s) "") eqn:E; [done|].
  simpl. by rewrite IH, E.
Qed.

Lemma trimStart_head s :
  Js.trimStart s = ""
  \/ exists c r, Js.trimStart s = String c r /\ Js.isWhiteSpace c = false.
Proof.
  induction s as [|c s IH]; [by left|]. simpl.
  destruct (Js.isWhiteSpace c) eqn:E; [done|]. right. by exists c, s.
Qed.

Lemma trimStart_trimEnd c r :
  Js.isWhiteSpace c = false ->
  Js.trimStart (Js.trimEnd (String c r)) = Js.trimEnd (String c r).
Proof. intros Hc. simpl. rewrite Hc. simpl. by rewrite Hc. Qed.

Lemma trim_idemp s : Js.trim (Js.trim s) = Js.trim s.
Proof.
  unfold Js.trim. destruct (trimStart_head s) as [->|(c & r & -> & Hc)]; [done|].
  by rewrite trimStart_trimEnd, trimEnd_idemp.
Qed.

Lemma trimEnd_append_ws c s :
  Js.isWhiteSpace c = true -> Js.trimEnd (s +:+ String c "") = Js.trimEnd s.
Proof.
  intros Hc. induction s as [|a s IH].
  - change ("" +:+ String c "") with (String c ""). simpl. by rewrite Hc.
  - rewrite append_String. simpl. by rewrite IH.
Qed.

Lemma trimStart_append_ws c s :
  Js.isWhiteSpace c = true ->
  Js.trimStart (s +:+ String c "")
  = if String.eqb (Js.trimStart s) "" then "" else Js.trimStart s +:+ String c "".
Proof.
  intros Hc. induction s as [|a s IH].
  - change ("" +:+ String c "") with (String c ""). simpl. by rewrite Hc.
  - rewrite append_String. simpl. destruct (Js.isWhiteSpace a); [done|].
    simpl. by rewrite append_String.
Qed.

Lemma trim_append_ws c s :
  Js.isWhiteSpace c = true -> Js.trim (s +:+ String c "") = Js.trim s.
Proof.
  intros Hc. unfold Js.trim. rewrite trimStart_append_ws by done.
  destruct (String.eqb_spec (Js.trimStart s) "") as [->|_]; [done|].
  by apply trimEnd_append_ws.
Qed.

Lemma includes_append_char c d s :
  c <> d -> Js.includes (String c "") s = false ->
  Js.includes (String c "") (s +:+ String d "") = false.
Proof.
  intros Hne. induction s as [|a s IH]; intros Hs.
  - change ("" +:+ String d "") with (String d ""). simpl.
    by destruct (ascii_dec c d).
  - rewrite append_String. simpl in *.
    destruct (ascii_dec c a); [by destruct s|]. simpl in *. by apply IH.
Qed.

Lemma join_cons sep l1 l2 rest :
  Js.join sep (l1 :: l2 :: rest) = l1 +:+ sep +:+ Js.join sep (l2 :: rest).
Proof. reflexivity. Qed.

Lemma append_assoc a b c : (a +:+ b) +:+ c = a +:+ (b +:+ c).
Proof. induction a as [|x a IH]; [done|]. by rewrite !append_String, IH. Qed.

(** The lines of a document joined by line feeds are found again by
    [split]; joined by carriage return and line feed, they are found with
    the carriage return left at their end. *)
Lemma split_join_lf lines :
  lines <> [] ->
  Forall (fun l => Js.includes lf l = false) lines ->
  Js.split newline (Js.join lf lines) = lines.
Proof.
  intros Hne Hall. induction Hall as [|l rest Hl Hrest IH]; [done|].
  destruct rest as [|l2 rest]; [by apply split_no_sep|].
  rewrite join_cons. unfold lf at 1. change (String newline "" +:+ ?x)
    with (String newline x).
  rewrite split_append_sep, (split_no_sep _ l) by done.
  by rewrite IH.
Qed.

Lemma split_join_crlf lines :
  lines <> [] ->
  Forall (fun l => Js.includes lf l = false) lines ->
  map Js.trim (Js.split newline (Js.join crlf lines)) = map Js.trim lines.
Proof.
  intros Hne Hall. induction Hall as [|l rest Hl Hrest IH]; [done|].
  destruct rest as [|l2 rest]; [by rewrite (split_no_sep _ l)|].
  rewrite join_cons. unfold crlf at 1.
  change (String carriageReturn (String newline "") +:+ ?x)
    with (String carriageReturn "" +:+ String newline x).
  rewrite <- append_assoc, split_append_sep.
  rewrite (split_no_sep _ (l +:+ String carriageReturn ""))
    by (by apply includes_append_char).
  cbn [app map]. rewrite IH by done. by rewrite trim_append_ws.
Qed.

(** X12. Carriage returns do not matter: a manifest whose lines are joined
    by carriage return and line feed resolves to the same locators as the
    one whose lines are joined by line feeds alone. *)
Theorem parseM3u8_crlf status lines m3u8Url :
  lines <> [] ->
  Forall (fun l => Js.includes lf l = false) lines ->
  parseM3u8 (Response status (String.list_byte_of_string (Js.join crlf lines))) m3u8Url
  = parseM3u8 (Response status (String.list_byte_of_string (Js.join lf lines))) m3u8Url.
Proof.
  intros Hne Hall. unfold parseM3u8, text_of.
  destruct (negb (ok status)); [done|].
  rewrite !String.string_of_list_byte_of_string.
  by rewrite split_join_crlf, split_join_lf.
Qed.

Lemma parseM3u8_crlf_witness :
  parseM3u8 (Response 200 (String.list_byte_of_string crlfManifest)) "http://h/a/i.m3u8"
  = parseM3u8 (Response 200 (String.list_byte_of_string lfManifest)) "http://h/a/i.m3u8".
Proof.
  exact (parseM3u8_crlf 200 ["#EXTM3U"; "s0.ts"; "http://x/s1.ts"; ""]
           "http://h/a/i.m3u8" ltac:(discriminate)
           ltac:(repeat constructor)).
Defined.

Lemma text_of_app a b : text_of (a ++ b) = text_of a +:+ text_of b.
Proof.
  unfold text_of, String.string_of_list_byte. rewrite map_app.
  induction (map Ascii.ascii_of_byte a) as [|x l IH]; [done|].
  simpl. by rewrite IH.
Qed.

(** X13. A manifest is resolved line by line: the locators of two
    documents put one after the other, a line feed between them, are the
    locators of the first followed by those of the second. *)
Theorem parseM3u8_concat status a b m3u8Url la lb :
  parseM3u8 (Response status a) m3u8Url = Ok la ->
  parseM3u8 (Response status b) m3u8Url = Ok lb ->
  parseM3u8 (Response status (a ++ Byte.x0a :: b)) m3u8Url = Ok (la ++ lb).
Proof.
  unfold parseM3u8. destruct (negb (ok status)); [done|].
  intros [= <-] [= <-]. f_equal.
  rewrite text_of_app. change (text_of (Byte.x0a :: b))
    with (String newline (text_of b)).
  by rewrite split_append_sep, map_app, filter_app, map_app.
Qed.

Lemma parseM3u8_concat_witness :
  parseM3u8 (Response 200 (bytesOf "#EXTM3U
s0.ts" ++ Byte.x0a :: bytesOf "# tail
s1.ts")) "http://h/a/i.m3u8"
  = Ok (["http://h/a/s0.ts"] ++ ["http://h/a/s1.ts"]).
Proof.
  exact (parseM3u8_concat 200 _ _ "http://h/a/i.m3u8" _ _ eq_refl eq_refl).
Defined.

(** X14. Every locator [parseM3u8] returns comes from a line that is not
    empty, has no white space at either end and is not a comment, and is
    that line or the base address, a slash and that line; so no locator is
    empty. *)
Theorem parseM3u8_locators_wellformed status body m3u8Url locators locator :
  parseM3u8 (Response status body) m3u8Url = Ok locators ->
  locator ∈ locators ->
  (exists line,
      line <> "" /\ Js.trim line = line /\ Js.startsWith "#" line = false
      /\ verbatimOrRebased (baseUrlOf m3u8Url) line locator)
  /\ locator <> "".
Proof.
  unfold parseM3u8. destruct (negb (ok status)); [done|].
  intros [= <-] Hin.
  apply list_elem_of_fmap in Hin as (line & -> & Hline).
  apply list_elem_of_filter in Hline as [Hkept Hline].
  apply kept_segmentLine in Hkept as [Hne Hhash].
  apply list_elem_of_fmap in Hline as (raw & -> & _).
  split.
  - exists (Js.trim raw). split; [done|]. split; [apply trim_idemp|].
    split; [done|]. apply locatorOf_spec.
  - destruct (Js.startsWith "http" (Js.trim raw)); [done|].
    destruct (baseUrlOf m3u8Url); done.
Qed.

Lemma parseM3u8_locators_wellformed_witness : "http://h/a/s0.ts" <> "".
Proof.
  exact (proj2 (parseM3u8_locators_wellformed 200 (bytesOf lfManifest)
                  "http://h/a/i.m3u8" _ "http://h/a/s0.ts" eq_refl
                  ltac:(apply list_elem_of_here))).
Defined.

(** ** Classification and variants *)

Lemma includes_spec p s :
  Js.includes p s = true <-> exists a b, s = a +:+ p +:+ b.
Proof.
  split.
  - induction s as [|c s IH]; cbn [Js.includes].
    + rewrite orb_false_r. intros Hp.
      apply (proj1 (startsWith_spec p "")) in Hp as [rest Hr]. by exists "", rest.
    + intros [Hp|Hs]%orb_true_iff.
      * apply (proj1 (startsWith_spec p (String c s))) in Hp as [rest Hr].
        by exists "", rest.
      * destruct (IH Hs) as (a & b & ->). by exists (String c a), b.
  - intros (a & b & ->). induction a as [|c a IH].
    + change ("" +:+ p +:+ b) with (p +:+ b).
      assert (Hp : String.prefix p (p +:+ b) = true)
        by (apply (proj2 (startsWith_spec p (p +:+ b))); by exists b).
      destruct (p +:+ b); cbn [Js.includes]; by rewrite Hp.
    + rewrite append_String. cbn [Js.includes]. rewrite IH. apply orb_true_r.
Qed.

Lemma trimStart_suffix s : exists a, s = a +:+ Js.trimStart s.
Proof.
  induction s as [|c s [a IH]]; [by exists ""|]. simpl.
  destruct (Js.isWhiteSpace c); [|by exists ""].
  exists (String c a). by rewrite append_String, <- IH.
Qed.

Lemma trimEnd_prefix s : exists b, s = Js.trimEnd s +:+ b.
Proof.
  induction s as [|c s [b IH]]; [by exists ""|]. simpl.
  destruct (Js.isWhiteSpace c && String.eqb (Js.trimEnd s) ""); [by eexists|].
  exists b. by rewrite append_String, <- IH.
Qed.

Lemma trim_inside s : exists a b, s = a +:+ Js.trim s +:+ b.
Proof.
  unfold Js.trim. destruct (trimStart_suffix s) as [a Ha].
  destruct (trimEnd_prefix (Js.trimStart s)) as [b Hb].
  exists a, b. by rewrite <- Hb.
Qed.

Lemma split_first c s h t :
  Js.split c s = h :: t -> exists r, s = h +:+ r.
Proof.
  revert h t. induction s as [|x s IH]; intros h t; simpl.
  - intros [= <- <-]. by exists "".
  - destruct (Ascii.eqb_spec x c) as [->|Hne].
    + intros [= <- <-]. by exists (String c s).
    + destruct (Js.split c s) as [|h' t'] eqn:E.
      * intros [= <- <-]. by exists s.
      * intros [= <- <-]. destruct (IH h' t' eq_refl) as (r & ->).
        exists r. by rewrite append_String.
Qed.

Lemma split_inside c s l :
  l ∈ Js.split c s -> exists a b, s = a +:+ l +:+ b.
Proof.
  revert l. induction s as [|x s IH]; intros l; simpl.
  - intros ->%list_elem_of_singleton. by exists "", "".
  - destruct (Ascii.eqb_spec x c) as [->|Hne].
    + intros [->|Hl]%elem_of_cons.
      * by exists "", (String c s).
      * destruct (IH l Hl) as (a & b & ->). by exists (String c a), b.
    + pose proof (split_nonempty c s) as Hs.
      destruct (Js.split c s) as [|h t] eqn:E; [done|].
      intros [->|Hl]%elem_of_cons.
      * destruct (split_first c s h t E) as [r ->]. exists "", r.
        by rewrite append_String.
      * destruct (IH l) as (a & b & ->); [set_solver|]. by exists (String x a), b.
Qed.

Lemma includes_trans p l s :
  Js.includes p l = true -> (exists a b, s = a +:+ l +:+ b) ->
  Js.includes p s = true.
Proof.
  intros (a & b & ->)%includes_spec (a' & b' & ->). apply includes_spec.
  exists (a' +:+ a), (b +:+ b'). by rewrite !append_assoc.
Qed.

Lemma followers_directive_lines lines :
  length (followers lines) = length (filter directive lines).
Proof.
  induction lines as [|line rest IH]; [done|].
  cbn [followers]. rewrite filter_cons, length_app, IH.
  by destruct (decide (directive line)).
Qed.

Lemma streamInfos_attributes baseUrl lines :
  map (fun info => (name info, resolution info, bandwidth info))
    (streamInfos baseUrl lines)
  = map attributesOf (filter directive lines).
Proof.
  induction lines as [|line rest IH]; [done|].
  cbn [streamInfos]. rewrite filter_cons, map_app, IH.
  unfold directive at 2. destruct (decide _) as [Hd|Hd].
  - by rewrite Hd.
  - by destruct (Js.startsWith "#EXT-X-STREAM-INF" line).
Qed.

(** X15. [isMasterPlaylist] answers true exactly when the directive occurs
    somewhere in the document; so every document in which [chooseM3u8] finds
    a variant is classified as a master playlist (the converse fails: the
    directive may stand inside a line). *)
Theorem isMasterPlaylist_contains status body baseUrl :
  ok status = true ->
  (isMasterPlaylist (Response status body) = Ok true
   <-> exists a b, text_of body = a +:+ "#EXT-X-STREAM-INF" +:+ b)
  /\ (streamInfos baseUrl (map Js.trim (Js.split newline (text_of body))) <> [] ->
      isMasterPlaylist (Response status body) = Ok true).
Proof.
  intros Hok. unfold isMasterPlaylist. rewrite Hok. cbn [negb].
  split.
  - rewrite <- includes_spec. split; [by intros [= ->] | by intros ->].
  - intros Hne. f_equal.
    assert (Hd : exists raw, raw ∈ Js.split newline (text_of body)
                   /\ directive (Js.trim raw)).
    { assert (Hlen : length (filter directive
                               (map Js.trim (Js.split newline (text_of body)))) <> 0).
      { rewrite <- followers_directive_lines, <- (streamInfos_length baseUrl).
        by destruct (streamInfos _ _). }
      destruct (filter directive _) as [|l ls] eqn:E; [done|].
      assert (Hl : l ∈ filter directive
                     (map Js.trim (Js.split newline (text_of body))))
        by (rewrite E; set_solver).
      apply list_elem_of_filter in Hl as [Hdir Hl].
      apply list_elem_of_fmap in Hl as (raw & -> & Hraw). by exists raw. }
    destruct Hd as (raw & Hraw & Hdir).
    apply (includes_trans _ raw); [|by eapply split_inside].
    apply (includes_trans _ (Js.trim raw)); [|apply trim_inside].
    apply includes_spec. apply startsWith_spec in Hdir as [rest ->].
    by exists "", rest.
Qed.

Lemma isMasterPlaylist_contains_witness :
  isMasterPlaylist (Response 200 twoVariants) = Ok true.
Proof.
  apply (proj2 (isMasterPlaylist_contains 200 twoVariants "http://h/a" eq_refl)).
  by vm_compute.
Defined.

(** X16. [chooseM3u8] offers one choice for every line that begins with the
    directive, in the order of the lines and whatever follows them (a
    directive on the last line included), and the name, resolution and
    bandwidth of a choice are read from its own directive line. *)
Theorem streamInfos_per_directive baseUrl lines :
  length (streamInfos baseUrl lines) = length (filter directive lines)
  /\ map (fun info => (name info, resolution info, bandwidth info))
       (streamInfos baseUrl lines)
     = map attributesOf (filter directive lines).
Proof.
  split; [|apply streamInfos_attributes].
  by rewrite streamInfos_length, followers_directive_lines.
Qed.

(** ** Attributes of a variant *)

Lemma afterPrefix_spec p s rest : afterPrefix p s = Some rest -> s = p +:+ rest.
Proof.
  revert s. induction p as [|a p IH]; intros s; simpl.
  - by intros [= ->].
  - destruct s as [|b s]; [done|].
    destruct (Ascii.eqb_spec a b) as [->|]; [|done].
    intros ->%IH. by rewrite append_String.
Qed.

Lemma takeWhile_dropWhile cls s : s = takeWhile cls s +:+ dropWhile cls s.
Proof.
  induction s as [|c s IH]; [done|]. simpl.
  destruct (cls c); [|done]. by rewrite append_String, <- IH.
Qed.

Lemma takeWhile_all cls s : Forall (fun c => cls c = true) (chars (takeWhile cls s)).
Proof.
  induction s as [|c s IH]; simpl; [constructor|].
  destruct (cls c) eqn:E; [|constructor]. by constructor.
Qed.

Lemma exec_sound key cls closing s r :
  exec key cls closing s = Some r ->
  r <> "" /\ Forall (fun c => cls c = true) (chars r)
  /\ exists a b, s = a +:+ key +:+ r +:+ b
       /\ match closing with
          | Some q => exists b', b = String q b'
          | None => True
          end.
Proof.
  assert (Hhere : forall s, matchHere key cls closing s = Some r ->
            r <> "" /\ Forall (fun c => cls c = true) (chars r)
            /\ exists b, s = key +:+ r +:+ b
                 /\ match closing with
                    | Some q => exists b', b = String q b'
                    | None => True
                    end).
  { clear s. intros s. unfold matchHere.
    destruct (afterPrefix key s) as [rest|] eqn:Hp; [|done].
    apply afterPrefix_spec in Hp as ->.
    destruct (String.eqb_spec (takeWhile cls rest) "") as [|Hne]; [done|].
    pose proof (takeWhile_dropWhile cls rest) as Hsplit.
    pose proof (takeWhile_all cls rest) as Hall.
    destruct closing as [q|].
    - destruct (dropWhile cls rest) as [|c b'] eqn:Hd; [done|].
      destruct (Ascii.eqb_spec c q) as [->|]; [|done].
      intros [= <-]. split; [done|]. split; [done|].
      exists (String q b'). split; [by rewrite <- Hsplit | by eexists].
    - intros [= <-]. split; [done|]. split; [done|].
      exists (dropWhile cls rest). by rewrite <- Hsplit. }
  induction s as [|c s IH]; cbn [exec].
  - destruct (matchHere key cls closing "") eqn:Hm; [|done].
    intros [= ->]. destruct (Hhere _ Hm) as (? & ? & b & ? & ?).
    split; [done|]. split; [done|]. by exists "", b.
  - destruct (matchHere key cls closing (String c s)) eqn:Hm.
    + intros [= ->]. destruct (Hhere _ Hm) as (? & ? & b & ? & ?).
      split; [done|]. split; [done|]. by exists "", b.
    + intros (? & ? & a & b & -> & ?)%IH.
      split; [done|]. split; [done|]. by exists (String c a), b.
Qed.

(** X17. An attribute read from a directive line really stands in it: a
    bandwidth is a non-empty run of digits that follows [BANDWIDTH=], a
    resolution a non-empty run of digits and [x] that follows [RESOLUTION=],
    and a name a non-empty run of characters between a double quote that
    follows [NAME=] and the next double quote. *)
Theorem attributes_sound line r :
  (execBandwidth line = Some r ->
   r <> "" /\ Forall (fun c => isDigit c = true) (chars r)
   /\ exists a b, line = a +:+ "BANDWIDTH=" +:+ r +:+ b)
  /\ (execResolution line = Some r ->
      r <> "" /\ Forall (fun c => isDigit c = true \/ c = "x"%char) (chars r)
      /\ exists a b, line = a +:+ "RESOLUTION=" +:+ r +:+ b)
  /\ (execName line = Some r ->
      r <> "" /\ Forall (fun c => c <> dquote) (chars r)
      /\ exists a b,
           line = a +:+ ("NAME=" +:+ String dquote "") +:+ r +:+ String dquote b).
Proof.
  split; [|split].
  - intros (Hne & Hall & a & b & -> & _)%exec_sound.
    split; [done|]. split; [done|]. by exists a, b.
  - intros (Hne & Hall & a & b & -> & _)%exec_sound.
    split; [done|]. split; [|by exists a, b].
    eapply Forall_impl; [exact Hall|]. intros c [Hd|Hx]%orb_true_iff; [by left|].
    right. by apply Ascii.eqb_eq in Hx.
  - intros (Hne & Hall & a & b & -> & b' & ->)%exec_sound.
    split; [done|]. split; [|by exists a, b'].
    eapply Forall_impl; [exact Hall|]. intros c Hc%negb_true_iff.
    by apply Ascii.eqb_neq in Hc.
Qed.

Lemma attributes_sound_witness :
  exists a b,
    "#EXT-X-STREAM-INF:AVERAGE-BANDWIDTH=100,BANDWIDTH=200"
    = a +:+ "BANDWIDTH=" +:+ "100" +:+ b.
Proof.
  exact (proj2 (proj2 (proj1 (attributes_sound
           "#EXT-X-STREAM-INF:AVERAGE-BANDWIDTH=100,BANDWIDTH=200" "100")
           eq_refl))).
Defined.

(** ** The progress bar and the console of a run *)

Lemma atomic_run_sequence {Task W : Type} (run : Task -> W -> W)
    (tasks : list Task) (limit : nat) (w0 w' : W) :
  runWithConcurrency (fun t : Task => t) (fun t w => (None, run t w))
    tasks limit w0 w' ->
  exists ts, ts ≡ₚ tasks /\ w' = runAll run w0 ts.
Proof.
  intros (s & Hrun & Hdone & <-).
  destruct (effects_once run tasks limit w0 s Hrun) as (order & Hnd & Hin & Hw).
  exists (omap (fun i => tasks !! i) order). split; [|done].
  assert (Hperm : order ≡ₚ seq 0 (length tasks)).
  { apply NoDup_Permutation; [done | apply NoDup_seq |].
    intros i. rewrite Hin, (settledSet_done_loose tasks s);
      [|by eapply looseInvariant_reachable | done].
    rewrite elem_of_set_seq, elem_of_seq. lia. }
  rewrite Hperm. pose proof (omap_lookup_seq [] tasks) as Hall.
  cbn [app length] in Hall. by rewrite Hall.
Qed.

Lemma fetched_cons env t ts :
  fetched env (t :: ts)
  = match segmentBody env t with
    | Some body => (seg_index t, body) :: fetched env ts
    | None => fetched env ts
    end.
Proof. unfold fetched. simpl. by destruct (segmentBody env t). Qed.

Lemma length_fetched_le env ts : length (fetched env ts) <= length ts.
Proof.
  induction ts as [|t ts IH]; [done|]. rewrite fetched_cons.
  destruct (segmentBody env t); simpl; lia.
Qed.

Lemma length_fetched_all env ts :
  length (fetched env ts) = length ts
  <-> forall t, t ∈ ts -> segmentBody env t <> None.
Proof.
  induction ts as [|t ts IH].
  - split; [|done]. by intros _ t Ht%elem_of_nil.
  - rewrite fetched_cons. pose proof (length_fetched_le env ts) as Hle.
    destruct (segmentBody env t) eqn:Hbody; simpl.
    + split.
      * intros Hlen t' [->|Ht']%elem_of_cons; [congruence|].
        apply IH; [lia | done].
      * intros Hall. f_equal. apply IH. intros t' Ht'. apply Hall. by right.
    + split; [lia|]. intros Hall. destruct (Hall t); [by left | done].
Qed.

Lemma fetched_nil env ts :
  fetched env ts = [] <-> forall t, t ∈ ts -> segmentBody env t = None.
Proof.
  induction ts as [|t ts IH].
  - split; [|done]. by intros _ t Ht%elem_of_nil.
  - rewrite fetched_cons. destruct (segmentBody env t) eqn:Hbody.
    + split; [done|]. intros Hall. rewrite Hall in Hbody; [done | by left].
    + rewrite IH. split.
      * intros Hall t' [->|Ht']%elem_of_cons; [done | by apply Hall].
      * intros Hall t' Ht'. apply Hall. by right.
Qed.

Lemma stored_nil env ts :
  stored env ts = [] <-> forall t, t ∈ ts -> segmentFile env t = None.
Proof.
  unfold stored. induction ts as [|t ts IH].
  - split; [|done]. by intros _ t Ht%elem_of_nil.
  - cbn [omap list_omap]. destruct (segmentFile env t) eqn:Hfile;
      cbn [fmap option_fmap option_map].
    + split; [done|]. intros Hall. rewrite Hall in Hfile; [done | by left].
    + rewrite IH. split.
      * intros Hall t' [->|Ht']%elem_of_cons; [done | by apply Hall].
      * intros Hall t' Ht'. apply Hall. by right.
Qed.

Lemma segmentFile_none env t :
  segmentFile env t = None -> segmentBody env t = None.
Proof.
  intros Hfile. destruct (segmentBody env t) as [body|] eqn:Hbody; [|done].
  apply segmentFile_fetched in Hbody. congruence.
Qed.

Lemma place_rest folder dir index file w :
  outputs (place folder dir index file w) = outputs w
  /\ progress (place folder dir index file w) = progress w
  /\ console (place folder dir index file w) = console w.
Proof. by destruct file. Qed.

(** The tasks one after the other: the workspace stays, the bar advances
    once for every segment fetched, and no output is touched. *)
Lemma runAll_segmentTasks env ts w :
  is_Some (fs w !! tempFolderOf env) ->
  let w' := runAll (fun t w => (segmentTask env (tempFolderOf env) t w).2) w ts in
  is_Some (fs w' !! tempFolderOf env)
  /\ progress w' = progress w + length (fetched env ts)
  /\ outputs w' = outputs w.
Proof.
  revert w. induction ts as [|t ts IH]; intros w [dir Hdir]; cbn zeta.
  - simpl. split; [by exists dir|]. split; [lia | done].
  - unfold runAll. cbn [foldl]. fold (runAll (fun t w =>
      (segmentTask env (tempFolderOf env) t w).2)
      (segmentTask env (tempFolderOf env) t w).2 ts).
    rewrite fetched_cons, (segmentTask_spec env _ t w dir Hdir). cbn [snd].
    destruct (place_rest (tempFolderOf env) dir (seg_index t) (segmentFile env t) w)
      as (Hout & Hprog & _).
    pose proof (place_lookup (tempFolderOf env) dir (seg_index t)
                  (segmentFile env t) w Hdir) as Hplace.
    destruct (segmentBody env t) as [body|].
    + edestruct IH as (Hfs & Hprogress & Houtputs);
        [|split; [exact Hfs|]; rewrite Hprogress, Houtputs; split;
          [cbn [progress increment length]; lia | cbn [outputs increment]; done]].
      cbn [fs increment]. by rewrite Hplace.
    + edestruct IH as (Hfs & Hprogress & Houtputs);
        [|split; [exact Hfs|]; rewrite Hprogress, Houtputs; split;
          [cbn [progress console_log]; lia | cbn [outputs console_log]; done]].
      cbn [fs console_log]. by rewrite Hplace.
Qed.

(** The same when no segment leaves a file: only failure lines are
    printed. *)
Lemma runAll_nothing_stored env ts w :
  is_Some (fs w !! tempFolderOf env) ->
  (forall t, t ∈ ts -> segmentFile env t = None) ->
  let w' := runAll (fun t w => (segmentTask env (tempFolderOf env) t w).2) w ts in
  fs w' = fs w /\ console w' = console w ++ (failureLine env <$> ts).
Proof.
  revert w. induction ts as [|t ts IH]; intros w [dir Hdir] Hnone; cbn zeta.
  - simpl. by rewrite app_nil_r.
  - unfold runAll. cbn [foldl]. fold (runAll (fun t w =>
      (segmentTask env (tempFolderOf env) t w).2)
      (segmentTask env (tempFolderOf env) t w).2 ts).
    rewrite (segmentTask_spec env _ t w dir Hdir), (Hnone t),
      (segmentFile_none env t (Hnone t ltac:(by left))) by by left.
    cbn [snd place]. edestruct IH as (Hfs & Hconsole);
      [| |rewrite Hfs, Hconsole; cbn [fs console console_log fmap list_fmap];
          split; [done | by rewrite <- app_assoc]].
    + cbn [fs console_log]. by exists dir.
    + intros t' Ht'. apply Hnone. by right.
Qed.

Lemma mergeTsFiles_progress env folder outputPath w :
  progress (mergeTsFiles env folder outputPath w).2 = progress w.
Proof.
  destruct (fs w !! folder) as [dir|] eqn:Hdir.
  - rewrite (mergeTsFiles_ok env folder outputPath w dir Hdir).
    destruct (sort _); [done|]. cbn [snd progress set_outputs].
    unfold mkdir_p. by destruct (fs w !! dirname env outputPath).
  - unfold mergeTsFiles. by rewrite Hdir.
Qed.

Lemma cleanup_progress env folder w :
  progress (cleanup env folder w).2 = progress w.
Proof.
  unfold cleanup. destruct (fs w !! folder); [|done].
  by destruct (rmError env folder).
Qed.

Lemma finish_progress env outputPath w :
  progress (finish env outputPath w).2 = progress w.
Proof.
  unfold finish.
  pose proof (mergeTsFiles_progress env (tempFolderOf env) outputPath
                (console_log "Merge TS files......" w)) as Hmerge.
  destruct (mergeTsFiles _ _ _ _) as [[[]|e] w2]; cbn [snd] in *; [|done].
  by rewrite cleanup_progress.
Qed.

Lemma prepare_workspace env w : is_Some (fs (prepare env w) !! tempFolderOf env).
Proof.
  unfold prepare, mkdir_p. simpl.
  destruct (fs w !! tempFolderOf env) eqn:Hf; simpl; [by rewrite Hf|].
  by rewrite lookup_insert_eq.
Qed.

(** X18. On every complete run whose manifest resolves, whatever the limit
    and the order in which the segments end, the progress bar stops at the
    number of segments that were fetched: it never passes the total, and it
    reaches the total exactly when no segment failed for good. *)
Theorem progress_counts_fetched env m3u8Url maxConcurrency outputPath w tsUrls
    res w' :
  resolveManifest env m3u8Url = Ok tsUrls ->
  downloadM3u8 env m3u8Url maxConcurrency outputPath w (res, w') ->
  progress w' = length (fetched env (tasksOf tsUrls))
  /\ progress w' <= length tsUrls
  /\ (progress w' = length tsUrls
      <-> forall t, t ∈ tasksOf tsUrls -> segmentBody env t <> None).
Proof.
  intros Hresolve Hrun.
  inversion Hrun as [e He|tsUrls' w1 Hres Hseg Hfin]; [congruence|].
  rewrite Hresolve in Hres. injection Hres as <-.
  apply atomic_run_sequence in Hseg as (ts & Hperm & ->).
  assert (Hprogress : progress w' = length (fetched env (tasksOf tsUrls))).
  { replace w' with (finish env outputPath
      (runAll (fun t w => (segmentTask env (tempFolderOf env) t w).2)
         (prepare env w) ts)).2 by by rewrite Hfin.
    rewrite finish_progress.
    destruct (runAll_segmentTasks env ts (prepare env w) (prepare_workspace env w))
      as (_ & -> & _).
    cbn [progress prepare]. unfold fetched. by rewrite Hperm. }
  rewrite Hprogress. replace (length tsUrls) with (length (tasksOf tsUrls))
    by apply length_imap.
  split; [done|]. split; [apply length_fetched_le | apply length_fetched_all].
Qed.

Lemma progress_counts_fetched_witness :
  exists r,
    downloadM3u8 exampleEnv "http://h/a/index.m3u8" 10 "downloads/out.ts"
      emptyWorld r
    /\ progress r.2 = 2.
Proof.
  destruct (downloadM3u8_total exampleEnv "http://h/a/index.m3u8" 10
              "downloads/out.ts" emptyWorld ltac:(lia)) as [[res w'] Hrun].
  exists (res, w'). split; [exact Hrun|].
  exact (proj1 (progress_counts_fetched exampleEnv "http://h/a/index.m3u8" 10
                  "downloads/out.ts" emptyWorld
                  ["http://h/a/s0.ts"; "http://h/a/s1.ts"; "http://h/a/s2.ts"]
                  res w' eq_refl Hrun)).
Defined.

(** X19. When no segment leaves a file in the workspace (every segment
    fails for good and no write fails part-way, or the manifest lists
    none), in a fresh workspace, every complete run creates no output file
    and still prints that the video is saved: the console gets the failure
    line of every segment, in some order, then the three lines of the
    assembly. *)
Theorem nothing_fetched_nothing_saved env m3u8Url maxConcurrency outputPath w
    tsUrls res w' :
  resolveManifest env m3u8Url = Ok tsUrls ->
  fs w !! tempFolderOf env = None ->
  stored env (tasksOf tsUrls) = [] ->
  downloadM3u8 env m3u8Url maxConcurrency outputPath w (res, w') ->
  fetched env (tasksOf tsUrls) = []
  /\ outputs w' = outputs w
  /\ exists failures,
       failures ≡ₚ (failureLine env <$> tasksOf tsUrls)
       /\ console w'
          = console w ++ failures
            ++ ["Merge TS files......"; "No TS files found to merge";
                "Video is saved as: " +:+ outputPath].
Proof.
  intros Hresolve Hfresh Hnone Hrun.
  pose proof (proj1 (stored_nil env (tasksOf tsUrls)) Hnone) as Hfiles.
  split.
  { apply fetched_nil. intros t Ht. by apply segmentFile_none, Hfiles. }
  inversion Hrun as [e He|tsUrls' w1 Hres Hseg Hfin]; [congruence|].
  rewrite Hresolve in Hres. injection Hres as <-.
  apply atomic_run_sequence in Hseg as (ts & Hperm & ->).
  assert (Hall : forall t, t ∈ ts -> segmentFile env t = None).
  { intros t Ht. rewrite Hperm in Ht. by apply Hfiles. }
  destruct (runAll_nothing_stored env ts (prepare env w)
              (prepare_workspace env w) Hall) as (Hfs & Hconsole).
  destruct (runAll_segmentTasks env ts (prepare env w) (prepare_workspace env w))
    as (_ & _ & Houtputs).
  set (w1 := runAll _ _ _) in *.
  assert (Hdir : fs w1 !! tempFolderOf env = Some ∅).
  { rewrite Hfs. unfold prepare, mkdir_p. rewrite Hfresh. simpl.
    by rewrite lookup_insert_eq. }
  destruct (finish_outcome env outputPath w1 ∅ Hdir)
    as (w2 & _ & Hw2 & _ & Hfinish).
  rewrite Hfinish in Hfin.
  assert (Hsame : outputs w' = outputs w2 /\ console w' = console w2).
  { by destruct (rmError env (tempFolderOf env)); injection Hfin as _ <-. }
  destruct Hsame as [-> ->]. rewrite Hw2.
  rewrite (mergeTsFiles_ok env _ outputPath _ ∅) by done.
  unfold readdir. rewrite map_to_list_empty.
  change (sort (filter _ ([] : list (string * list Byte.byte)).*1)) with (@nil string).
  cbn [snd outputs console console_log]. split.
  - rewrite Houtputs. unfold prepare, mkdir_p. by destruct (fs w !! tempFolderOf env).
  - exists (failureLine env <$> ts). split; [by rewrite Hperm|].
    rewrite Hconsole.
    replace (console (prepare env w)) with (console w)
      by (unfold prepare, mkdir_p; by destruct (fs w !! tempFolderOf env)).
    by rewrite <- !app_assoc.
Qed.

Lemma nothing_fetched_nothing_saved_witness :
  exists r failures,
    downloadM3u8 outageEnv "http://h/a/index.m3u8" 2 "downloads/out.ts"
      emptyWorld r
    /\ outputs r.2 = ∅
    /\ failures ≡ₚ ["Download failed: http://h/a/s0.ts - HTTP 503";
                    "Download failed: http://h/a/s1.ts - HTTP 503";
                    "Download failed: http://h/a/s2.ts - HTTP 503"]
    /\ console r.2
       = failures ++ ["Merge TS files......"; "No TS files found to merge";
                      "Video is saved as: downloads/out.ts"].
Proof.
  destruct (downloadM3u8_total outageEnv "http://h/a/index.m3u8" 2
              "downloads/out.ts" emptyWorld ltac:(lia)) as [[res w'] Hrun].
  destruct (nothing_fetched_nothing_saved outageEnv "http://h/a/index.m3u8" 2
              "downloads/out.ts" emptyWorld
              ["http://h/a/s0.ts"; "http://h/a/s1.ts"; "http://h/a/s2.ts"]
              res w' eq_refl eq_refl eq_refl Hrun)
    as (_ & Houtputs & failures & Hperm & Hconsole).
  exists (res, w'), failures. split; [exact Hrun|].
  split; [exact Houtputs|]. split; [exact Hperm | exact Hconsole].
Defined.

(** ** The command line *)


